(** * YellowDB examples: the TTL cache-aside layer and the session store

    A shallow embedding of [examples/cache_layer.py] (class [CacheLayer]) and
    [examples/session_store.py] (class [SessionStore]).  Both classes are thin
    layers over an ordered key-value store; every method is embedded as a
    computation in a state-and-exception monad over a [World] that holds the
    store contents, the trace of calls issued to the store, the wall clock
    and the random-token source.

    Conventions.
    - Python values that travel through [json.dumps]/[json.loads] are terms of
      [json]; Python's [None] is [JNull], a [dict] with string keys is a finite
      map.  Floats are not modelled.
    - A [datetime] is an integer count of microseconds; [timedelta(seconds=n)]
      is [n * 1000000].  The methods are modelled inside the range of
      [datetime], where that arithmetic does not overflow;
      [in_datetime_range] states the range where a theorem is about it.
    - Every call of [datetime.now()] consumes one reading of the clock, so a
      method that reads the clock twice may see two different instants. *)

From Stdlib Require Import ZArith QArith DecimalString DecimalZ.
From stdpp Require Import gmap strings list fin_maps sorting.

Set Warnings "-register-all".
#[local] Open Scope Z_scope.

(** ** Python values *)

Inductive json : Type :=
| JNull
| JBool (b : bool)
| JInt (n : Z)
| JStr (s : string)
| JList (l : list json)
| JDict (d : gmap string json).

(** The exceptions the two classes can let escape. *)
Inductive exn : Type :=
| KeyError (k : string)
| TypeError
| AttributeError
| ValueError
| JSONDecodeError
| Exception (msg : string).

Inductive outcome (A : Type) : Type :=
| Return (a : A)
| Raise (e : exn).
Arguments Return {A} a.
Arguments Raise {A} e.

(** Truth value of a Python object, as tested by [if x:] and [x or y]. *)
Definition truthy (v : json) : bool :=
  match v with
  | JNull => false
  | JBool b => b
  | JInt n => negb (n =? 0)
  | JStr s => negb (String.eqb s "")
  | JList l => negb (Nat.eqb (length l) 0)
  | JDict d => negb (Nat.eqb (size d) 0)
  end.

(** [ttl or fallback] for [ttl : Optional[int]]: [None] and [0] are falsy. *)
Definition int_or (ttl : option Z) (fallback : Z) : Z :=
  match ttl with
  | Some t => if t =? 0 then fallback else t
  | None => fallback
  end.

(** [obj[k]] for a string subscript [k]. *)
Definition getitem (obj : json) (k : string) : outcome json :=
  match obj with
  | JDict d => match d !! k with Some v => Return v | None => Raise (KeyError k) end
  | _ => Raise TypeError
  end.

(** [obj[k] = v] for a string subscript [k]. *)
Definition setitem (obj : json) (k : string) (v : json) : outcome json :=
  match obj with
  | JDict d => Return (JDict (<[k := v]> d))
  | _ => Raise TypeError
  end.

(** [obj.get(k, fallback)]. *)
Definition dict_get (obj : json) (k : string) (fallback : json) : outcome json :=
  match obj with
  | JDict d => Return (default fallback (d !! k))
  | _ => Raise AttributeError
  end.

(** [obj.update(other)] for a dict [other]: keys of [other] win. *)
Definition dict_update (obj : json) (other : gmap string json) : outcome json :=
  match obj with
  | JDict d => Return (JDict (other ∪ d))
  | _ => Raise AttributeError
  end.

(** [acc + v] for an [int] accumulator; a [bool] is an [int] in Python. *)
Definition int_add (acc : Z) (v : json) : outcome Z :=
  match v with
  | JInt n => Return (acc + n)
  | JBool b => Return (acc + (if b then 1 else 0))
  | _ => Raise TypeError
  end.

Definition timedelta (seconds : Z) : Z := seconds * 1000000.



(** ** The language runtime the classes rely on

    [json.dumps(v).encode()], [json.loads(b.decode())], [len(b)],
    [datetime.isoformat], [datetime.fromisoformat] and the string conversion
    of an f-string belong to Python, not to the repository.  They are taken as
    an interface with the laws the classes depend on: decoding inverts
    encoding, an encoded document is never the empty byte string, and an
    f-string leaves a [str] as it is.  [loads] and [fromisoformat] return
    [None] where Python raises. *)
Class Runtime : Type := {
  bytes : Type;
  len : bytes → nat;
  dumps : json → bytes;
  loads : bytes → option json;
  isoformat : Z → string;
  fromisoformat : string → option Z;
  format_str : json → string;
  loads_dumps : ∀ v, loads (dumps v) = Some v;
  len_dumps : ∀ v, len (dumps v) ≠ 0%nat;
  fromisoformat_isoformat : ∀ t, fromisoformat (isoformat t) = Some t;
  format_str_JStr : ∀ s, format_str (JStr s) = s
}.

(** ** The state-and-exception monad *)

Definition M (S A : Type) : Type := S → outcome A * S.

Definition ret {S A} (a : A) : M S A := λ s, (Return a, s).
Definition raise {S A} (e : exn) : M S A := λ s, (Raise e, s).
Definition bind {S A B} (m : M S A) (k : A → M S B) : M S B :=
  λ s, match m s with
       | (Return a, s') => k a s'
       | (Raise e, s') => (Raise e, s')
       end.
Definition lift_outcome {S A} (o : outcome A) : M S A := λ s, (o, s).
Definition modify {S} (f : S → S) : M S () := λ s, (Return (), f s).

Notation "'let*' x := m 'in' k" := (bind m (λ x, k))
  (at level 10, x name, m at level 100, k at level 200).
Notation "m >> k" := (bind m (λ _, k))
  (at level 100, k at level 200, right associativity).

(** ** The key-value store, the clock and the token source *)

Section world.
Context `{!Runtime}.

(** Modelled from the spec: what [Batch.put] and [Batch.delete] queue. *)
Inductive batch_op : Type :=
| BPut (k : string) (v : bytes)
| BDelete (k : string).

(** One entry per call issued to the store handle, oldest first. *)
Inductive store_call : Type :=
| CallGet (k : string)
| CallSet (k : string) (v : bytes)
| CallDelete (k : string)
| CallScan (start_key : string)
| CallBatch (ops : list batch_op)
| CallStats.

(** The metrics of [db.stats()] that the examples read. *)
Record store_stats : Type := {
  memtable_size : Z;
  cache_entries : Z
}.

Record World : Type := {
  store : gmap string bytes;
  calls : list store_call;
  engine_stats : list store_call → store_stats;
  clock : nat → Z;
  tick : nat;
  tokens : nat → string;
  drawn : nat
}.

Definition with_store (f : gmap string bytes → gmap string bytes) (c : store_call)
    (w : World) : World :=
  {| store := f (store w); calls := calls w ++ [c];
     engine_stats := engine_stats w; clock := clock w; tick := tick w;
     tokens := tokens w; drawn := drawn w |}.

(** Modelled from the spec: [YellowDB.get] of the store handle, whose code is
    not among the examples.  It returns the bytes stored under a key, or
    [None]. *)
Definition db_get (k : string) : M World (option bytes) :=
  λ w, (Return (store w !! k), with_store id (CallGet k) w).

(** Modelled from the spec: [YellowDB.set], a point write. *)
Definition db_set (k : string) (v : bytes) : M World () :=
  λ w, (Return (), with_store (insert k v) (CallSet k v) w).

(** Modelled from the spec: [YellowDB.delete], an idempotent point delete. *)
Definition db_delete (k : string) : M World () :=
  λ w, (Return (), with_store (delete k) (CallDelete k) w).

(** The lexicographic order of keys, on entries. *)
Definition key_le (a b : string * bytes) : Prop := String.leb a.1 b.1.

(** Modelled from the spec: what [YellowDB.scan(start_key)] yields, the
    entries whose key is at or after [start_key], in lexicographic key order,
    unbounded above. *)
Definition scan_entries (start_key : string) (m : gmap string bytes)
    : list (string * bytes) :=
  merge_sort key_le
    (filter (λ e : string * bytes, String.leb start_key e.1) (map_to_list m)).

(** Modelled from the spec: [YellowDB.scan]; the loops below consume the
    sequence while nothing writes to the store. *)
Definition db_scan (start_key : string) : M World (list (string * bytes)) :=
  λ w, (Return (scan_entries start_key (store w)), with_store id (CallScan start_key) w).

(** Modelled from the spec: the effect of one operation of a [Batch]. *)
Definition apply_op (m : gmap string bytes) (o : batch_op) : gmap string bytes :=
  match o with
  | BPut k v => <[k := v]> m
  | BDelete k => delete k m
  end.

(** Modelled from the spec: the operations of a [Batch], applied in the
    order they were queued. *)
Definition apply_batch (ops : list batch_op) (m : gmap string bytes)
    : gmap string bytes :=
  foldl apply_op m ops.

(** The key a batch operation deletes, if it is a delete. *)
Definition delete_key (o : batch_op) : option string :=
  match o with
  | BDelete k => Some k
  | BPut _ _ => None
  end.

(** Modelled from the spec: leaving a [with Batch(db)] block normally applies
    the collected puts and deletes in order, as one atomic call. *)
Definition db_batch (ops : list batch_op) : M World () :=
  λ w, (Return (), with_store (apply_batch ops) (CallBatch ops) w).

(** Modelled from the spec: [YellowDB.stats] reads metrics that the engine
    derives from its own history; the contents are not touched. *)
Definition db_stats : M World store_stats :=
  λ w, (Return (engine_stats w (calls w)), with_store id CallStats w).

(** Time passing: the clock moves on to reading [n]. *)
Definition at_tick (n : nat) (w : World) : World :=
  {| store := store w; calls := calls w; engine_stats := engine_stats w;
     clock := clock w; tick := n; tokens := tokens w; drawn := drawn w |}.

(** [datetime.now()]: the current reading; the next call sees the next one. *)
Definition datetime_now : M World Z :=
  λ w, (Return (clock w (tick w)), at_tick (S (tick w)) w).

(** [secrets.token_urlsafe(32)]. *)
Definition token_urlsafe : M World string :=
  λ w, (Return (tokens w (drawn w)),
        {| store := store w; calls := calls w; engine_stats := engine_stats w;
           clock := clock w; tick := tick w;
           tokens := tokens w; drawn := S (drawn w) |}).

(** The calls that only read from the store. *)
Definition is_read (c : store_call) : Prop :=
  match c with
  | CallGet _ | CallScan _ | CallStats => True
  | CallSet _ _ | CallDelete _ | CallBatch _ => False
  end.

(** [if b:] for [b : Optional[bytes]]: [None] and [b""] are falsy. *)
Definition nonempty (b : option bytes) : option bytes :=
  match b with
  | Some x => if Nat.eqb (len x) 0 then None else Some x
  | None => None
  end.

(** [json.loads(b.decode())]. *)
Definition json_loads (b : bytes) : outcome json :=
  match loads b with
  | Some v => Return v
  | None => Raise JSONDecodeError
  end.

(** [datetime.fromisoformat(v)]. *)
Definition datetime_fromisoformat (v : json) : outcome Z :=
  match v with
  | JStr s => match fromisoformat s with
              | Some t => Return t
              | None => Raise ValueError
              end
  | _ => Raise TypeError
  end.

(** [key.startswith(prefix)]. *)
Definition startswith (key prefix : string) : bool := String.prefix prefix key.

End world.

(** ** [examples/cache_layer.py]: class [CacheLayer] *)

Module CacheLayer.
Section cache_layer.
Context `{!Runtime}.

(** [self.stats]. *)
Record Stats : Type := {
  hits : Z;
  misses : Z;
  writes : Z;
  evictions : Z
}.

(** The instance: the store handle with everything it reaches, the
    configured default and the counters. *)
Record t : Type := {
  db : World;
  default_ttl : Z;
  stats : Stats
}.

Definition cache_prefix : string := "cache:".
Definition metadata_prefix : string := "meta:".

Definition set_db (w : World) (self : t) : t :=
  {| db := w; default_ttl := default_ttl self; stats := stats self |}.

Definition set_stats (s : Stats) (self : t) : t :=
  {| db := db self; default_ttl := default_ttl self; stats := s |}.

(** A store or clock primitive run on [self.db]. *)
Definition on_db {A} (m : M World A) : M t A :=
  λ self, match m (db self) with
          | (r, w) => (r, set_db w self)
          end.

(** Reading an attribute of [self]. *)
Definition self_attr {A} (f : t → A) : M t A := λ self, (Return (f self), self).

Definition update_stats (f : Stats → Stats) : M t () :=
  modify (λ self, set_stats (f (stats self)) self).

(** Time passing between two calls: the next clock reading is number [n]. *)
Definition elapse (n : nat) (self : t) : t := set_db (at_tick n (db self)) self.

Definition add_hits (n : Z) (s : Stats) : Stats :=
  {| hits := hits s + n; misses := misses s; writes := writes s; evictions := evictions s |}.
Definition add_misses (n : Z) (s : Stats) : Stats :=
  {| hits := hits s; misses := misses s + n; writes := writes s; evictions := evictions s |}.
Definition add_writes (n : Z) (s : Stats) : Stats :=
  {| hits := hits s; misses := misses s; writes := writes s + n; evictions := evictions s |}.
Definition add_evictions (n : Z) (s : Stats) : Stats :=
  {| hits := hits s; misses := misses s; writes := writes s; evictions := evictions s + n |}.

(** The [metadata] dict literal of [set] and [warm_cache]. *)
Definition metadata_dict (key : string) (created_at expires_at ttl : Z)
    (value_bytes : bytes) : json :=
  JDict (<["key" := JStr key]>
        (<["created_at" := JStr (isoformat created_at)]>
        (<["expires_at" := JStr (isoformat expires_at)]>
        (<["ttl" := JInt ttl]>
        (<["size_bytes" := JInt (Z.of_nat (len value_bytes))]> ∅))))).

(** [CacheLayer.set] (lines 88-115). *)
Definition set (key : string) (value : json) (ttl : option Z) : M t () :=
  let* default := self_attr default_ttl in
  let ttl := int_or ttl default in
  let cache_key := cache_prefix +:+ key in
  let meta_key := metadata_prefix +:+ key in
  let value_bytes := dumps value in
  let* created_at := on_db datetime_now in
  let* now := on_db datetime_now in
  let metadata :=
    metadata_dict key created_at (now + timedelta ttl) ttl value_bytes in
  let meta_bytes := dumps metadata in
  on_db (db_batch [BPut cache_key value_bytes; BPut meta_key meta_bytes]) >>
  update_stats (add_writes 1).

(** Lines 79-86 of [CacheLayer.get]: count the miss, then the loader branch. *)
Definition miss (key : string) (loader_fn : option (M t json)) (ttl : option Z)
    : M t json :=
  update_stats (add_misses 1) >>
  match loader_fn with
  | Some load =>
      let* value := load in
      set key value ttl >>
      ret value
  | None => ret JNull
  end.

(** Lines 76-77 of [CacheLayer.get], followed by the miss path. *)
Definition drop_then_miss (key : string) (loader_fn : option (M t json))
    (ttl : option Z) : M t json :=
  on_db (db_delete (cache_prefix +:+ key)) >>
  on_db (db_delete (metadata_prefix +:+ key)) >>
  miss key loader_fn ttl.

(** [CacheLayer.get] (lines 50-86). *)
Definition get (key : string) (loader_fn : option (M t json)) (ttl : option Z)
    : M t json :=
  let cache_key := cache_prefix +:+ key in
  let meta_key := metadata_prefix +:+ key in
  let* cached_bytes := on_db (db_get cache_key) in
  match nonempty cached_bytes with
  | Some cached_bytes =>
      let* meta_bytes := on_db (db_get meta_key) in
      match nonempty meta_bytes with
      | Some meta_bytes =>
          let* metadata := lift_outcome (json_loads meta_bytes) in
          let* expires_field := lift_outcome (getitem metadata "expires_at") in
          let* expires_at := lift_outcome (datetime_fromisoformat expires_field) in
          let* now := on_db datetime_now in
          if now <? expires_at then
            update_stats (add_hits 1) >>
            lift_outcome (json_loads cached_bytes)
          else drop_then_miss key loader_fn ttl
      | None => drop_then_miss key loader_fn ttl
      end
  | None => miss key loader_fn ttl
  end.

(** [CacheLayer.delete] (lines 117-131). *)
Definition delete (key : string) : M t () :=
  let cache_key := cache_prefix +:+ key in
  let meta_key := metadata_prefix +:+ key in
  on_db (db_batch [BDelete cache_key; BDelete meta_key]) >>
  update_stats (add_evictions 1).

(** The scan loop of [clear_expired] (lines 143-150): [expired_keys] is the
    list built so far. *)
Fixpoint collect_expired (current_time : Z) (entries : list (string * bytes))
    (expired_keys : list json) : outcome (list json) :=
  match entries with
  | [] => Return expired_keys
  | (key, value) :: rest =>
      if negb (startswith key metadata_prefix) then Return expired_keys
      else
        match json_loads value with
        | Raise e => Raise e
        | Return metadata =>
            match getitem metadata "expires_at" with
            | Raise e => Raise e
            | Return expires_field =>
                match datetime_fromisoformat expires_field with
                | Raise e => Raise e
                | Return expires_at =>
                    if current_time >? expires_at then
                      match getitem metadata "key" with
                      | Raise e => Raise e
                      | Return original_key =>
                          collect_expired current_time rest
                            (expired_keys ++ [original_key])
                      end
                    else collect_expired current_time rest expired_keys
                end
            end
        end
  end.

(** The deletes queued for one expired key (lines 155-156). *)
Definition delete_pair (original_key : json) : list batch_op :=
  [BDelete (cache_prefix +:+ format_str original_key);
   BDelete (metadata_prefix +:+ format_str original_key)].

(** [CacheLayer.clear_expired] (lines 133-159). *)
Definition clear_expired : M t Z :=
  let* current_time := on_db datetime_now in
  let* entries := on_db (db_scan metadata_prefix) in
  let* expired_keys := lift_outcome (collect_expired current_time entries []) in
  match expired_keys with
  | [] => ret 0
  | _ :: _ =>
      on_db (db_batch (flat_map delete_pair expired_keys)) >>
      update_stats (add_evictions (Z.of_nat (length expired_keys))) >>
      ret (Z.of_nat (length expired_keys))
  end.

(** The two puts queued for one item of [data_dict] (lines 168-179). *)
Definition warm_pair (current_time ttl : Z) (item : string * json) : list batch_op :=
  let key := item.1 in
  let value := item.2 in
  let cache_key := cache_prefix +:+ key in
  let meta_key := metadata_prefix +:+ key in
  let value_bytes := dumps value in
  let metadata :=
    metadata_dict key current_time (current_time + timedelta ttl) ttl value_bytes in
  [BPut cache_key value_bytes; BPut meta_key (dumps metadata)].

(** [CacheLayer.warm_cache] (lines 161-182); [data_dict.items()] is the list
    of items in insertion order. *)
Definition warm_cache (data_dict : list (string * json)) (ttl : option Z) : M t Z :=
  let* default := self_attr default_ttl in
  let ttl := int_or ttl default in
  let* current_time := on_db datetime_now in
  on_db (db_batch (flat_map (warm_pair current_time ttl) data_dict)) >>
  update_stats (add_writes (Z.of_nat (length data_dict))) >>
  ret (Z.of_nat (length data_dict)).

(** The data model of section 3: under every metadata key [meta:K] lies a
    record that decodes to a dict naming [K] and carrying a timestamp. *)
Definition well_formed (m : gmap string bytes) : Prop :=
  ∀ k b,
    startswith k metadata_prefix → m !! k = Some b →
    ∃ key d expires_at,
      k = metadata_prefix +:+ key ∧
      loads b = Some (JDict d) ∧
      d !! "key" = Some (JStr key) ∧
      d !! "expires_at" = Some (JStr (isoformat expires_at)).

(** The paired-record invariant: the two records of a logical key exist
    together or not at all. *)
Definition paired (m : gmap string bytes) : Prop :=
  ∀ key, is_Some (m !! (cache_prefix +:+ key)) ↔ is_Some (m !! (metadata_prefix +:+ key)).

(** The [expires_at] of the entry of [key], when its metadata record is
    there and decodes. *)
Definition expires_at_of (m : gmap string bytes) (key : string) : option Z :=
  match m !! (metadata_prefix +:+ key) with
  | Some b =>
      match loads b with
      | Some (JDict d) =>
          match d !! "expires_at" with
          | Some (JStr s) => fromisoformat s
          | _ => None
          end
      | _ => None
      end
  | None => None
  end.

(** The logical key a scanned metadata entry contributes to [expired_keys],
    when it decodes and [current_time > expires_at]. *)
Definition expired_key (current_time : Z) (e : string * bytes) : option string :=
  match loads e.2 with
  | Some (JDict d) =>
      match d !! "expires_at", d !! "key" with
      | Some (JStr s), Some (JStr key) =>
          match fromisoformat s with
          | Some expires_at => if current_time >? expires_at then Some key else None
          | None => None
          end
      | _, _ => None
      end
  | _ => None
  end.

(** The dict returned by [get_stats]. *)
Record Snapshot : Type := {
  cache_hits : Z;
  cache_misses : Z;
  hit_rate_percent : Q;
  total_writes : Z;
  total_evictions : Z;
  current_entries : Z;
  total_cached_size : Z;
  snapshot_memtable_size : Z
}.

(** The scan loop of [get_stats] (lines 191-196). *)
Fixpoint count_entries (entries : list (string * bytes)) (cached_entries total_size : Z)
    : outcome (Z * Z) :=
  match entries with
  | [] => Return (cached_entries, total_size)
  | (key, value) :: rest =>
      if negb (startswith key metadata_prefix) then Return (cached_entries, total_size)
      else
        match json_loads value with
        | Raise e => Raise e
        | Return metadata =>
            match dict_get metadata "size_bytes" (JInt 0) with
            | Raise e => Raise e
            | Return size_bytes =>
                match int_add total_size size_bytes with
                | Raise e => Raise e
                | Return total_size' =>
                    count_entries rest (cached_entries + 1) total_size'
                end
            end
        end
  end.

(** [CacheLayer.get_stats] (lines 184-209); the rate is an exact rational. *)
Definition get_stats : M t Snapshot :=
  let* seen := self_attr stats in
  let total_requests := hits seen + misses seen in
  let hit_rate :=
    if total_requests >? 0
    then (inject_Z (hits seen) / inject_Z total_requests * inject_Z 100)%Q
    else inject_Z 0 in
  let* entries := on_db (db_scan metadata_prefix) in
  let* counted := lift_outcome (count_entries entries 0 0) in
  let* db_stats := on_db db_stats in
  let* final := self_attr stats in
  ret {| cache_hits := hits final;
         cache_misses := misses final;
         hit_rate_percent := hit_rate;
         total_writes := writes final;
         total_evictions := evictions final;
         current_entries := counted.1;
         total_cached_size := counted.2;
         snapshot_memtable_size := memtable_size db_stats |}.

End cache_layer.
End CacheLayer.

(** ** [examples/cache_layer.py]: the loader of the demonstration *)

Section demonstration.
Context `{!Runtime}.



End demonstration.

(** ** [examples/session_store.py]: class [SessionStore] *)

Module SessionStore.
Section session_store.
Context `{!Runtime}.

(** The instance: the store handle and the uniform time-to-live. *)
Record t : Type := {
  db : World;
  ttl_seconds : Z
}.

Definition session_prefix : string := "session:".

Definition set_db (w : World) (self : t) : t :=
  {| db := w; ttl_seconds := ttl_seconds self |}.

Definition on_db {A} (m : M World A) : M t A :=
  λ self, match m (db self) with
          | (r, w) => (r, set_db w self)
          end.

Definition self_attr {A} (f : t → A) : M t A := λ self, (Return (f self), self).

(** Time passing between two calls: the next clock reading is number [n]. *)
Definition elapse (n : nat) (self : t) : t := set_db (at_tick n (db self)) self.

(** [data or {}] for [data : Optional[dict]]. *)
Definition dict_or_empty (data : option (gmap string json)) : gmap string json :=
  match data with
  | Some d => if Nat.eqb (size d) 0 then ∅ else d
  | None => ∅
  end.

(** The [session_data] dict literal of [create_session] (lines 45-51). *)
Definition session_dict (session_id user_id : string) (created_at last_accessed : Z)
    (data : gmap string json) : gmap string json :=
  <["session_id" := JStr session_id]>
  (<["user_id" := JStr user_id]>
  (<["created_at" := JStr (isoformat created_at)]>
  (<["last_accessed" := JStr (isoformat last_accessed)]>
  (<["data" := JDict data]> ∅)))).

(** [SessionStore.create_session] (lines 31-54). *)
Definition create_session (user_id : string) (data : option (gmap string json))
    : M t string :=
  let* session_id := on_db token_urlsafe in
  let key := session_prefix +:+ session_id in
  let* created_at := on_db datetime_now in
  let* last_accessed := on_db datetime_now in
  let session_data :=
    JDict (session_dict session_id user_id created_at last_accessed
             (dict_or_empty data)) in
  on_db (db_set key (dumps session_data)) >>
  ret session_id.

(** [SessionStore.delete_session] (lines 105-112). *)
Definition delete_session (session_id : string) : M t () :=
  on_db (db_delete (session_prefix +:+ session_id)).

(** [SessionStore.get_session] (lines 56-81); [None] is [JNull]. *)
Definition get_session (session_id : string) : M t json :=
  let key := session_prefix +:+ session_id in
  let* session_bytes := on_db (db_get key) in
  match nonempty session_bytes with
  | None => ret JNull
  | Some session_bytes =>
      let* session_data := lift_outcome (json_loads session_bytes) in
      let* accessed_field := lift_outcome (getitem session_data "last_accessed") in
      let* last_accessed := lift_outcome (datetime_fromisoformat accessed_field) in
      let* now := on_db datetime_now in
      let* ttl := self_attr ttl_seconds in
      if now - last_accessed >? timedelta ttl then
        delete_session session_id >>
        ret JNull
      else
        let* now := on_db datetime_now in
        let* session_data :=
          lift_outcome (setitem session_data "last_accessed" (JStr (isoformat now))) in
        on_db (db_set key (dumps session_data)) >>
        ret session_data
  end.

(** [SessionStore.update_session] (lines 83-103). *)
Definition update_session (session_id : string) (data : gmap string json) : M t bool :=
  let* session_data := get_session session_id in
  if negb (truthy session_data) then ret false
  else
    let* fields := lift_outcome (getitem session_data "data") in
    let* fields := lift_outcome (dict_update fields data) in
    let* session_data := lift_outcome (setitem session_data "data" fields) in
    let* now := on_db datetime_now in
    let* session_data :=
      lift_outcome (setitem session_data "last_accessed" (JStr (isoformat now))) in
    let key := session_prefix +:+ session_id in
    on_db (db_set key (dumps session_data)) >>
    ret true.

(** [a == b] for a decoded field [a] and a [str] [b]. *)
Definition eq_str (a : json) (b : string) : bool :=
  match a with
  | JStr s => String.eqb s b
  | _ => false
  end.

(** The scan loop of [get_user_sessions] (lines 125-130). *)
Fixpoint collect_user (user_id : string) (entries : list (string * bytes))
    (sessions : list json) : outcome (list json) :=
  match entries with
  | [] => Return sessions
  | (key, value) :: rest =>
      if negb (startswith key session_prefix) then Return sessions
      else
        match json_loads value with
        | Raise e => Raise e
        | Return session_data =>
            match getitem session_data "user_id" with
            | Raise e => Raise e
            | Return owner =>
                if eq_str owner user_id then
                  match getitem session_data "session_id" with
                  | Raise e => Raise e
                  | Return session_id =>
                      collect_user user_id rest (sessions ++ [session_id])
                  end
                else collect_user user_id rest sessions
            end
        end
  end.

(** [SessionStore.get_user_sessions] (lines 114-131). *)
Definition get_user_sessions (user_id : string) : M t (list json) :=
  let* entries := on_db (db_scan session_prefix) in
  lift_outcome (collect_user user_id entries []).

(** The scan loop of [cleanup_expired_sessions] (lines 143-150). *)
Fixpoint collect_expired (current_time ttl : Z) (entries : list (string * bytes))
    (expired_sessions : list json) : outcome (list json) :=
  match entries with
  | [] => Return expired_sessions
  | (key, value) :: rest =>
      if negb (startswith key session_prefix) then Return expired_sessions
      else
        match json_loads value with
        | Raise e => Raise e
        | Return session_data =>
            match getitem session_data "last_accessed" with
            | Raise e => Raise e
            | Return accessed_field =>
                match datetime_fromisoformat accessed_field with
                | Raise e => Raise e
                | Return last_accessed =>
                    if current_time - last_accessed >? timedelta ttl then
                      match getitem session_data "session_id" with
                      | Raise e => Raise e
                      | Return session_id =>
                          collect_expired current_time ttl rest
                            (expired_sessions ++ [session_id])
                      end
                    else collect_expired current_time ttl rest expired_sessions
                end
            end
        end
  end.

(** The delete queued for one expired session (line 155). *)
Definition delete_op (session_id : json) : batch_op :=
  BDelete (session_prefix +:+ format_str session_id).

(** [SessionStore.cleanup_expired_sessions] (lines 133-157). *)
Definition cleanup_expired_sessions : M t Z :=
  let* current_time := on_db datetime_now in
  let* entries := on_db (db_scan session_prefix) in
  let* ttl := self_attr ttl_seconds in
  let* expired_sessions :=
    lift_outcome (collect_expired current_time ttl entries []) in
  match expired_sessions with
  | [] => ret 0
  | _ :: _ =>
      on_db (db_batch (map delete_op expired_sessions)) >>
      ret (Z.of_nat (length expired_sessions))
  end.

(** The data model's key discipline: a record stored under a session key
    names, in its [session_id] field, the session that key belongs to. *)
Definition session_keyed (m : gmap string bytes) : Prop :=
  ∀ k b d session_id,
    startswith k session_prefix →
    m !! k = Some b →
    loads b = Some (JDict d) →
    d !! "session_id" = Some session_id →
    k = session_prefix +:+ format_str session_id.

(** The data model of the session records: under every session key
    [session:S] lies a record that decodes to a dict naming [S] and its user
    and carrying a data mapping and the timestamp of the last access. *)
Definition session_well_formed (m : gmap string bytes) : Prop :=
  ∀ k b,
    startswith k session_prefix → m !! k = Some b →
    ∃ session_id d user_id last_accessed data,
      k = session_prefix +:+ session_id ∧
      loads b = Some (JDict d) ∧
      d !! "session_id" = Some (JStr session_id) ∧
      d !! "user_id" = Some (JStr user_id) ∧
      d !! "last_accessed" = Some (JStr (isoformat last_accessed)) ∧
      d !! "data" = Some (JDict data).


(** The user of the session [session_id], when its record is there and
    decodes. *)
Definition user_of (m : gmap string bytes) (session_id : string) : option string :=
  match m !! (session_prefix +:+ session_id) with
  | Some b =>
      match loads b with
      | Some (JDict d) =>
          match d !! "user_id" with
          | Some (JStr u) => Some u
          | _ => None
          end
      | _ => None
      end
  | None => None
  end.


(** The session id a scanned record contributes to the result of
    [get_user_sessions], when it decodes and belongs to [user_id]. *)
Definition owned_session (user_id : string) (e : string * bytes) : option string :=
  match loads e.2 with
  | Some (JDict d) =>
      match d !! "user_id", d !! "session_id" with
      | Some (JStr owner), Some (JStr session_id) =>
          if String.eqb owner user_id then Some session_id else None
      | _, _ => None
      end
  | _ => None
  end.

(** The dict returned by [get_stats]. *)
Record Snapshot : Type := {
  total_sessions : Z;
  snapshot_memtable_size : Z;
  snapshot_cache_entries : Z
}.

(** [SessionStore.get_stats] (lines 159-174): the generator filters the whole
    scan, it does not stop at the first foreign key. *)
Definition get_stats : M t Snapshot :=
  let* entries := on_db (db_scan session_prefix) in
  let total :=
    length (filter (λ e : string * bytes, startswith e.1 session_prefix) entries) in
  let* db_stats := on_db db_stats in
  ret {| total_sessions := Z.of_nat total;
         snapshot_memtable_size := memtable_size db_stats;
         snapshot_cache_entries := cache_entries db_stats |}.

End session_store.
End SessionStore.

(** ** A reference runtime

    An instance of [Runtime] on which the methods can be run.  A byte string
    is either the encoding of a document or a run of octets that is not valid
    JSON; the empty run is [b""].  Timestamps are printed as decimal counts of
    microseconds. *)

Inductive ref_bytes : Type :=
| Doc (v : json)
| Octets (raw : list Byte.byte).

(** A nominal, positive length for an encoded document: one more than its
    number of nodes. *)
Fixpoint doc_len (v : json) : nat :=
  match v with
  | JList l => S (foldr (λ x acc, doc_len x + acc)%nat 0%nat l)
  | JDict d => S (map_fold (λ _ x acc, doc_len x + acc)%nat 0%nat d)
  | _ => 1%nat
  end.

Definition ref_len (b : ref_bytes) : nat :=
  match b with
  | Doc v => doc_len v
  | Octets raw => length raw
  end.

Definition ref_loads (b : ref_bytes) : option json :=
  match b with
  | Doc v => Some v
  | Octets _ => None
  end.

Definition ref_isoformat (t : Z) : string := NilEmpty.string_of_int (Z.to_int t).

Definition ref_fromisoformat (s : string) : option Z :=
  Z.of_int <$> NilEmpty.int_of_string s.

(** Only a [str], an [int], a [bool] and [None] are rendered faithfully;
    containers are abbreviated. *)
Definition ref_format_str (v : json) : string :=
  match v with
  | JStr s => s
  | JInt n => ref_isoformat n
  | JBool b => if b then "True" else "False"
  | JNull => "None"
  | JList _ => "[...]"
  | JDict _ => "{...}"
  end.

Lemma doc_len_pos v : doc_len v ≠ 0%nat.
Proof. by destruct v. Qed.

Lemma ref_fromisoformat_isoformat t : ref_fromisoformat (ref_isoformat t) = Some t.
Proof.
  unfold ref_fromisoformat, ref_isoformat.
  by rewrite NilEmpty.isi; simpl; rewrite DecimalZ.of_to.
Qed.

#[export] Instance reference_runtime : Runtime := {|
  bytes := ref_bytes;
  len := ref_len;
  dumps := Doc;
  loads := ref_loads;
  isoformat := ref_isoformat;
  fromisoformat := ref_fromisoformat;
  format_str := ref_format_str;
  loads_dumps := λ v, eq_refl;
  len_dumps := doc_len_pos;
  fromisoformat_isoformat := ref_fromisoformat_isoformat;
  format_str_JStr := λ s, eq_refl
|}.

(** A world for the reference runtime: an empty store, no call made yet,
    the given clock, constant engine metrics and numbered tokens. *)
Definition fresh_world (clock : nat → Z) : World :=
  {| store := ∅; calls := [];
     engine_stats := λ _, {| memtable_size := 0; cache_entries := 0 |};
     clock := clock; tick := 0;
     tokens := λ n, "token-" +:+ ref_isoformat (Z.of_nat n); drawn := 0 |}.

(** A clock that shows the listed readings in turn and then stays at the
    last one. *)
Definition readings (l : list Z) : nat → Z :=
  λ n, default (default 0 (last l)) (l !! n).

Definition fresh_cache (default_ttl : Z) (clock : nat → Z) : CacheLayer.t :=
  {| CacheLayer.db := fresh_world clock;
     CacheLayer.default_ttl := default_ttl;
     CacheLayer.stats :=
       {| CacheLayer.hits := 0; CacheLayer.misses := 0;
          CacheLayer.writes := 0; CacheLayer.evictions := 0 |} |}.

Definition fresh_sessions (ttl_seconds : Z) (clock : nat → Z) : SessionStore.t :=
  {| SessionStore.db := fresh_world clock;
     SessionStore.ttl_seconds := ttl_seconds |}.

(** The value [{"v": 1}]. *)
Definition sample_value : json := JDict {["v" := JInt 1]}.

(** [CacheLayer(default_ttl=5)] after [set("k", {"v": 1})] at time 0; the
    following clock readings are [later]. *)
Definition cache_with_k (later : list Z) : CacheLayer.t :=
  (CacheLayer.set "k" sample_value None (fresh_cache 5 (readings (0 :: 0 :: later)))).2.

(** The same cache after the value record alone was removed from the store,
    as a fault between two point deletes leaves it. *)
Definition cache_with_orphan_metadata (later : list Z) : CacheLayer.t :=
  (CacheLayer.on_db (db_delete "cache:k") (cache_with_k later)).2.

(** The dict [get_stats] returns for that cache. *)
Definition snapshot_with_k : CacheLayer.Snapshot :=
  {| CacheLayer.cache_hits := 0; CacheLayer.cache_misses := 0;
     CacheLayer.hit_rate_percent := inject_Z 0;
     CacheLayer.total_writes := 1; CacheLayer.total_evictions := 0;
     CacheLayer.current_entries := 1; CacheLayer.total_cached_size := 2;
     CacheLayer.snapshot_memtable_size := 0 |}.

(** A loader whose source is down. *)
Definition failing_loader : M CacheLayer.t json := raise (Exception "source down").


(** [SessionStore(ttl_seconds=10)] after [create_session("u1")] at time 0,
    which draws the id ["token-0"]. *)
Definition sessions_with_one (later : list Z) : SessionStore.t :=
  (SessionStore.create_session "u1" None
     (fresh_sessions 10 (readings (0 :: 0 :: later)))).2.

(** Then [create_session("u2")] at time 8 s, which draws ["token-1"]. *)
Definition sessions_with_two (later : list Z) : SessionStore.t :=
  (SessionStore.create_session "u2" None
     (sessions_with_one (8000000 :: 8000000 :: later))).2.

(** ** Evaluating the methods

    [run] unfolds the monad and the state updates; the map operations and the
    runtime stay folded, to be rewritten with their lemmas. *)

Ltac run :=
  repeat progress
    (unfold with_store, at_tick, CacheLayer.set_db, CacheLayer.set_stats,
       CacheLayer.elapse, SessionStore.set_db, SessionStore.elapse,
       CacheLayer.add_hits, CacheLayer.add_misses,
       CacheLayer.add_writes, CacheLayer.add_evictions;
     cbn [bind ret raise lift_outcome modify fst snd id
          db_get db_set db_delete db_scan db_batch db_stats datetime_now token_urlsafe
          store calls engine_stats clock tick tokens drawn
          apply_batch apply_op foldl
          CacheLayer.on_db CacheLayer.self_attr CacheLayer.update_stats
          CacheLayer.db CacheLayer.default_ttl CacheLayer.stats
          CacheLayer.hits CacheLayer.misses CacheLayer.writes CacheLayer.evictions
          CacheLayer.miss CacheLayer.drop_then_miss
          SessionStore.on_db SessionStore.self_attr SessionStore.delete_session
          SessionStore.db SessionStore.ttl_seconds]).

(** Closes the observations about a final state once it is explicit. *)
Ltac observed :=
  run; rewrite <- ?app_assoc; cbn [app]; repeat split; try done.

(** ** Facts about the runtime and the Python helpers *)

Section runtime_facts.
Context `{!Runtime}.

Lemma nonempty_dumps v : nonempty (Some (dumps v)) = Some (dumps v).
Proof.
  unfold nonempty. destruct (Nat.eqb_spec (len (dumps v)) 0) as [E|]; [|done].
  by apply len_dumps in E.
Qed.

Lemma nonempty_Some_inv o b : nonempty o = Some b → o = Some b.
Proof.
  destruct o as [x|]; [|done]. unfold nonempty.
  by destruct (Nat.eqb (len x) 0); intros [= ->].
Qed.

Lemma json_loads_dumps v : json_loads (dumps v) = Return v.
Proof. unfold json_loads. by rewrite loads_dumps. Qed.

Lemma json_loads_Return b v : loads b = Some v → json_loads b = Return v.
Proof. unfold json_loads. by intros ->. Qed.

Lemma json_loads_Raise b : loads b = None → json_loads b = Raise JSONDecodeError.
Proof. unfold json_loads. by intros ->. Qed.

Lemma fromisoformat_JStr t : datetime_fromisoformat (JStr (isoformat t)) = Return t.
Proof. unfold datetime_fromisoformat. by rewrite fromisoformat_isoformat. Qed.


Lemma int_or_zero d : int_or (Some 0) d = int_or None d.
Proof. reflexivity. Qed.

End runtime_facts.

(** ** Facts about the key order *)

Lemma ascii_compare_refl a : Ascii.compare a a = Eq.
Proof. apply N.compare_refl. Qed.

Lemma ascii_compare_lt_trans a b c :
  Ascii.compare a b = Lt → Ascii.compare b c = Lt → Ascii.compare a c = Lt.
Proof. unfold Ascii.compare. rewrite !N.compare_lt_iff. lia. Qed.

Lemma ascii_compare_lt_gt a b : Ascii.compare a b = Lt → Ascii.compare b a = Gt.
Proof. intros E. by rewrite Ascii.compare_antisym, E. Qed.

Lemma string_leb_cons a s b t :
  String.leb (String a s) (String b t) =
  match Ascii.compare a b with
  | Lt => true
  | Eq => String.leb s t
  | Gt => false
  end.
Proof. unfold String.leb. cbn [String.compare]. by destruct (Ascii.compare a b). Qed.

Lemma string_leb_trans s1 s2 s3 :
  String.leb s1 s2 → String.leb s2 s3 → String.leb s1 s3.
Proof.
  revert s2 s3. induction s1 as [|a s1 IH]; intros [|b s2] [|c s3]; try done.
  rewrite !string_leb_cons.
  destruct (Ascii.compare a b) eqn:Eab; [| |done].
  - apply Ascii.compare_eq_iff in Eab as ->.
    destruct (Ascii.compare b c); [apply IH|done..].
  - destruct (Ascii.compare b c) eqn:Ebc; [| |done].
    + apply Ascii.compare_eq_iff in Ebc as ->. by rewrite Eab.
    + by rewrite (ascii_compare_lt_trans _ _ _ Eab Ebc).
Qed.

(** A key is at or after each of its prefixes. *)
Lemma string_leb_prefix p k : String.prefix p k → String.leb p k.
Proof.
  revert k. induction p as [|a p IH]; intros [|b k]; try done.
  cbn [String.prefix]. destruct (Ascii.ascii_dec a b) as [->|]; [|done].
  rewrite string_leb_cons, ascii_compare_refl. apply IH.
Qed.

(** The keys with a given prefix are contiguous: a key between the prefix
    and a key that has the prefix has it too. *)
Lemma string_prefix_between p k1 k2 :
  String.leb p k1 → String.leb k1 k2 → String.prefix p k2 → String.prefix p k1.
Proof.
  revert k1 k2. induction p as [|a p IH]; intros [|b k1] [|c k2]; try done.
  rewrite !string_leb_cons. cbn [String.prefix].
  destruct (Ascii.ascii_dec a c) as [<-|]; [|done].
  destruct (Ascii.compare a b) eqn:Eab; [| |done].
  - apply Ascii.compare_eq_iff in Eab as <-.
    rewrite ascii_compare_refl. destruct (Ascii.ascii_dec a a); [|done]. apply IH.
  - by rewrite (ascii_compare_lt_gt _ _ Eab).
Qed.

Lemma string_prefix_app p s : String.prefix p (p +:+ s).
Proof.
  induction p as [|a p IH]; [by destruct s|].
  simpl. by destruct (Ascii.ascii_dec a a).
Qed.

Lemma string_prefix_inv p k : String.prefix p k → ∃ s, k = p +:+ s.
Proof.
  revert k. induction p as [|a p IH]; intros k; [by exists k|].
  destruct k as [|b k]; [done|]. simpl.
  destruct (Ascii.ascii_dec a b) as [->|]; [|done].
  intros [s ->]%IH. by exists s.
Qed.

Lemma string_app_inj p s1 s2 : p +:+ s1 = p +:+ s2 → s1 = s2.
Proof. induction p as [|a p IH]; [done|]. intros [= ?]. by apply IH. Qed.

(** ** Facts about the store *)

Section store_facts.
Context `{!Runtime}.

#[local] Instance key_le_total : Total key_le.
Proof.
  intros [k1 ?] [k2 ?]. unfold key_le. cbn [fst].
  destruct (String.leb_total k1 k2) as [->| ->]; [by left|by right].
Qed.

#[local] Instance key_le_trans : Transitive key_le.
Proof. intros [] [] []. unfold key_le. apply string_leb_trans. Qed.

(** A scan yields exactly the entries of the store at or after its start. *)
Lemma scan_entries_elem_of start_key (m : gmap string bytes) k b :
  (k, b) ∈ scan_entries start_key m ↔ m !! k = Some b ∧ String.leb start_key k.
Proof.
  unfold scan_entries.
  rewrite merge_sort_Permutation, list_elem_of_filter, elem_of_map_to_list.
  cbn [fst]. tauto.
Qed.

Lemma scan_entries_lookup start_key (m : gmap string bytes) k b :
  (k, b) ∈ scan_entries start_key m → m !! k = Some b.
Proof. rewrite scan_entries_elem_of. tauto. Qed.

Lemma scan_entries_sorted start_key (m : gmap string bytes) :
  StronglySorted key_le (scan_entries start_key m).
Proof. apply (StronglySorted_merge_sort _). Qed.

Lemma scan_entries_NoDup start_key (m : gmap string bytes) :
  NoDup (scan_entries start_key m).*1.
Proof.
  unfold scan_entries. rewrite merge_sort_Permutation.
  eapply sublist_NoDup; [apply (NoDup_fst_map_to_list m)|].
  apply fmap_sublist, sublist_filter.
Qed.

(** The entries a loop over [scan(prefix)] handles before its [break]. *)
Definition with_prefix (prefix : string) (entries : list (string * bytes))
    : list (string * bytes) :=
  filter (λ e : string * bytes, startswith e.1 prefix) entries.

(** Once a scanned key lacks the prefix, none of the later keys has it. *)
Lemma with_prefix_after_foreign prefix e entries :
  StronglySorted key_le (e :: entries) →
  String.leb prefix e.1 →
  startswith e.1 prefix = false →
  with_prefix prefix entries = [].
Proof.
  intros [Hle _]%StronglySorted_cons Hge Hno. unfold with_prefix.
  induction Hle as [|e' entries He' _ IH]; [done|].
  rewrite filter_cons_False; [done|].
  unfold startswith. intros Hp.
  pose proof (string_prefix_between _ _ _ Hge He' Hp) as Hpe.
  unfold startswith in Hno. by rewrite Hno in Hpe.
Qed.

(** The entries of a scan from [prefix] that carry the prefix are exactly
    the entries of the store whose key carries it. *)
Lemma with_prefix_scan_elem_of prefix (m : gmap string bytes) k b :
  (k, b) ∈ with_prefix prefix (scan_entries prefix m) ↔
  m !! k = Some b ∧ startswith k prefix.
Proof.
  unfold with_prefix. rewrite list_elem_of_filter, scan_entries_elem_of. cbn [fst].
  split; [tauto|]. intros [? Hp]. split_and!; [done..|].
  by apply string_leb_prefix.
Qed.

Lemma with_prefix_scan_NoDup prefix (m : gmap string bytes) :
  NoDup (with_prefix prefix (scan_entries prefix m)).*1.
Proof.
  eapply sublist_NoDup; [apply scan_entries_NoDup|].
  apply fmap_sublist, sublist_filter.
Qed.

Lemma scan_entries_Forall_ge start_key (m : gmap string bytes) :
  Forall (λ e : string * bytes, String.leb start_key e.1) (scan_entries start_key m).
Proof.
  apply Forall_forall. intros [k b] Hin.
  by apply scan_entries_elem_of in Hin as [_ ?].
Qed.

(** What a batch that only deletes the keys [ks] leaves under a key. *)
Lemma apply_deletes_lookup ks (m : gmap string bytes) k :
  apply_batch (BDelete <$> ks) m !! k = if decide (k ∈ ks) then None else m !! k.
Proof.
  unfold apply_batch. revert m. induction ks as [|k' ks IH]; intros m; cbn [fmap list_fmap foldl].
  { by rewrite decide_False by apply not_elem_of_nil. }
  rewrite IH. cbn [apply_op]. destruct (decide (k ∈ ks)) as [Hin|Hin].
  - by rewrite decide_True by (by right).
  - destruct (decide (k = k')) as [->|Hne].
    + rewrite decide_True by left. apply lookup_delete_eq.
    + rewrite decide_False by (by intros [?|?]%elem_of_cons).
      by apply lookup_delete_ne.
Qed.

(** A batch of deletes adds nothing and changes no value. *)
Lemma apply_deletes_lookup_Some ops (m : gmap string bytes) k b :
  Forall (λ o, is_Some (delete_key o)) ops →
  apply_batch ops m !! k = Some b → m !! k = Some b.
Proof.
  unfold apply_batch. intros Hops. revert m.
  induction Hops as [|o ops [k' Ho] _ IH]; intros m; cbn [foldl]; [done|].
  intros Hk. apply IH in Hk. destruct o; [done|]. cbn [apply_op] in Hk.
  by apply lookup_delete_Some in Hk as [_ ?].
Qed.

(** A key that a batch of deletes removes is the target of one of them. *)
Lemma apply_deletes_lookup_None ops (m : gmap string bytes) k b :
  Forall (λ o, is_Some (delete_key o)) ops →
  m !! k = Some b → apply_batch ops m !! k = None →
  BDelete k ∈ ops.
Proof.
  unfold apply_batch. intros Hops. revert m.
  induction Hops as [|o ops [k' Ho] _ IH]; intros m; cbn [foldl]; [congruence|].
  intros Hm Hk. destruct o as [|k'']; [done|]. cbn [apply_op] in Hk.
  destruct (decide (k'' = k)) as [->|Hne]; [left|].
  right. eapply IH; [|done]. by rewrite lookup_delete_ne.
Qed.

End store_facts.

(** ** [CacheLayer]: the methods on an arbitrary instance *)

Section cache_theorems.
Context `{!Runtime}.
Import CacheLayer.

Lemma metadata_expires key c e ttl vb :
  getitem (metadata_dict key c e ttl vb) "expires_at" = Return (JStr (isoformat e)).
Proof. reflexivity. Qed.

(** [set] never fails; it issues one batch that puts both records, with
    [created_at] the first clock reading and [expires_at] the second one plus
    the effective time-to-live. *)
Lemma set_run key value ttl self :
  let w := db self in
  let ttl' := int_or ttl (default_ttl self) in
  let value_bytes := dumps value in
  let meta_bytes :=
    dumps (metadata_dict key (clock w (tick w))
             (clock w (S (tick w)) + timedelta ttl') ttl' value_bytes) in
  let ops := [BPut (cache_prefix +:+ key) value_bytes;
              BPut (metadata_prefix +:+ key) meta_bytes] in
  set key value ttl self =
  (Return (),
   set_stats (add_writes 1 (stats self))
     (set_db (with_store (apply_batch ops) (CallBatch ops)
                (at_tick (S (S (tick w))) w)) self)).
Proof. reflexivity. Qed.

(** An explicit [ttl=0] is treated like an omitted [ttl]. *)
Lemma set_zero_ttl key value self :
  set key value (Some 0) self = set key value None self.
Proof. reflexivity. Qed.


(** The miss path with no loader: one more miss, [None] returned. *)
Lemma miss_no_loader key ttl self :
  miss key None ttl self =
  (Return JNull, set_stats (add_misses 1 (stats self)) self).
Proof. reflexivity. Qed.

(** [get] when the value record is missing or empty: only [cache:key] has
    been read when the miss path starts. *)
Lemma get_value_missing key loader_fn ttl self :
  nonempty (store (db self) !! (cache_prefix +:+ key)) = None →
  get key loader_fn ttl self =
  miss key loader_fn ttl
    (set_db (with_store id (CallGet (cache_prefix +:+ key)) (db self)) self).
Proof.
  destruct self as [[st cl es ck tk tok dr] dttl sts]. cbn [db store].
  intros Hc. unfold get. run. by rewrite Hc.
Qed.

(** [get] when the value record is there and the metadata record is missing
    or empty: both keys are read, then both are deleted by point deletes. *)
Lemma get_metadata_missing key loader_fn ttl self cached :
  nonempty (store (db self) !! (cache_prefix +:+ key)) = Some cached →
  nonempty (store (db self) !! (metadata_prefix +:+ key)) = None →
  get key loader_fn ttl self =
  drop_then_miss key loader_fn ttl
    (set_db (with_store id (CallGet (metadata_prefix +:+ key))
               (with_store id (CallGet (cache_prefix +:+ key)) (db self))) self).
Proof.
  destruct self as [[st cl es ck tk tok dr] dttl sts]. cbn [db store].
  intros Hc Hm. unfold get. run. rewrite Hc. run. by rewrite Hm.
Qed.

(** [get] when both records are there and the metadata decodes: the clock is
    read once and compared with [expires_at]. *)
Lemma get_checked key loader_fn ttl self cached meta metadata field expires_at :
  nonempty (store (db self) !! (cache_prefix +:+ key)) = Some cached →
  nonempty (store (db self) !! (metadata_prefix +:+ key)) = Some meta →
  loads meta = Some metadata →
  getitem metadata "expires_at" = Return field →
  datetime_fromisoformat field = Return expires_at →
  let w := db self in
  let read :=
    set_db (at_tick (S (tick w))
              (with_store id (CallGet (metadata_prefix +:+ key))
                 (with_store id (CallGet (cache_prefix +:+ key)) w))) self in
  get key loader_fn ttl self =
  if clock w (tick w) <? expires_at
  then (json_loads cached, set_stats (add_hits 1 (stats self)) read)
  else drop_then_miss key loader_fn ttl read.
Proof.
  destruct self as [[st cl es ck tk tok dr] dttl sts]. cbn [db store clock tick].
  intros Hc Hm Hl Hf He. unfold get. run. rewrite Hc. run. rewrite Hm. run.
  rewrite (json_loads_Return _ _ Hl). run. rewrite Hf. run. rewrite He. run.
  destruct (ck tk <? expires_at); [|done]. run. by destruct (json_loads cached).
Qed.

(** The two point deletes of the lazy-expiry path, with no loader. *)
Lemma drop_then_miss_no_loader key ttl self :
  let cache_key := cache_prefix +:+ key in
  let meta_key := metadata_prefix +:+ key in
  drop_then_miss key None ttl self =
  (Return JNull,
   set_stats (add_misses 1 (stats self))
     (set_db (with_store (base.delete meta_key) (CallDelete meta_key)
                (with_store (base.delete cache_key) (CallDelete cache_key) (db self)))
        self)).
Proof. reflexivity. Qed.

(** (C4, amended) [get] decides from the value record, which it reads first.
    When [cache:key] is missing or empty, whatever [meta:key] holds, [get]
    reads nothing else and deletes nothing before the miss path; with no
    loader it returns [None], counts a miss and leaves the store, an orphan
    [meta:key] included, as it was.  When [cache:key] is there and [meta:key]
    is missing or empty, [get] deletes both keys by two point deletes and then
    takes the miss path.  When [cache:key] holds bytes that do not decode and
    the metadata says the entry is live, the decoding error escapes and
    nothing is deleted. *)
Theorem get_decides_from_value_record (self : CacheLayer.t) key loader_fn ttl :
  let cache_key := cache_prefix +:+ key in
  let meta_key := metadata_prefix +:+ key in
  let w := db self in
  (nonempty (store w !! cache_key) = None →
     get key loader_fn ttl self =
       miss key loader_fn ttl (set_db (with_store id (CallGet cache_key) w) self) ∧
     ∃ self',
       get key None ttl self = (Return JNull, self') ∧
       store (db self') = store w ∧
       calls (db self') = calls w ++ [CallGet cache_key] ∧
       misses (stats self') = misses (stats self) + 1 ∧
       hits (stats self') = hits (stats self)) ∧
  (∀ cached,
     nonempty (store w !! cache_key) = Some cached →
     nonempty (store w !! meta_key) = None →
     get key loader_fn ttl self =
       drop_then_miss key loader_fn ttl
         (set_db (with_store id (CallGet meta_key)
                    (with_store id (CallGet cache_key) w)) self) ∧
     ∃ self',
       get key None ttl self = (Return JNull, self') ∧
       store (db self') = base.delete meta_key (base.delete cache_key (store w)) ∧
       calls (db self') =
         calls w ++ [CallGet cache_key; CallGet meta_key;
                     CallDelete cache_key; CallDelete meta_key] ∧
       misses (stats self') = misses (stats self) + 1) ∧
  (∀ cached meta metadata field expires_at,
     nonempty (store w !! cache_key) = Some cached →
     nonempty (store w !! meta_key) = Some meta →
     loads meta = Some metadata →
     getitem metadata "expires_at" = Return field →
     datetime_fromisoformat field = Return expires_at →
     clock w (tick w) < expires_at →
     loads cached = None →
     ∃ self',
       get key loader_fn ttl self = (Raise JSONDecodeError, self') ∧
       store (db self') = store w ∧
       calls (db self') = calls w ++ [CallGet cache_key; CallGet meta_key]).
Proof.
  intros cache_key meta_key w. subst w. split_and!.
  - intros Hc. split; [by apply get_value_missing|].
    rewrite get_value_missing, miss_no_loader by done.
    eexists. split; [done|]. destruct self as [[] ? []]. observed.
  - intros cached Hc Hm. split; [by eapply get_metadata_missing|].
    erewrite get_metadata_missing, drop_then_miss_no_loader by done.
    eexists. split; [done|]. destruct self as [[] ? []]. observed.
  - intros cached meta metadata field expires_at Hc Hm Hl Hf He Hlive Hbad.
    erewrite get_checked by done.
    destruct (Z.ltb_spec (clock (db self) (tick (db self))) expires_at); [|lia].
    rewrite (json_loads_Raise _ Hbad).
    eexists. split; [done|]. destruct self as [[] ? []]. observed.
Qed.

(** (C8, amended) [get] with no loader returns [None] on an absent and on an
    expired entry.  On an absent entry (no value record) it issues no write.
    On an expired entry ([expires_at <= now]) it does write: it deletes
    [cache:key] and [meta:key] by two point deletes, puts nothing and leaves
    every other key alone. *)
Theorem get_no_loader_absent_or_expired (self : CacheLayer.t) key ttl :
  let cache_key := cache_prefix +:+ key in
  let meta_key := metadata_prefix +:+ key in
  let w := db self in
  (nonempty (store w !! cache_key) = None →
     ∃ self',
       get key None ttl self = (Return JNull, self') ∧
       store (db self') = store w ∧
       calls (db self') = calls w ++ [CallGet cache_key]) ∧
  (∀ cached meta metadata field expires_at,
     nonempty (store w !! cache_key) = Some cached →
     nonempty (store w !! meta_key) = Some meta →
     loads meta = Some metadata →
     getitem metadata "expires_at" = Return field →
     datetime_fromisoformat field = Return expires_at →
     expires_at ≤ clock w (tick w) →
     ∃ self',
       get key None ttl self = (Return JNull, self') ∧
       store (db self') = base.delete meta_key (base.delete cache_key (store w)) ∧
       calls (db self') =
         calls w ++ [CallGet cache_key; CallGet meta_key;
                     CallDelete cache_key; CallDelete meta_key] ∧
       (∀ k, k ≠ cache_key → k ≠ meta_key → store (db self') !! k = store w !! k)).
Proof.
  intros cache_key meta_key w. subst w. split.
  - intros Hc. rewrite get_value_missing, miss_no_loader by done.
    eexists. split; [done|]. destruct self as [[] ? []]. observed.
  - intros cached meta metadata field expires_at Hc Hm Hl Hf He Hexp.
    erewrite get_checked by done.
    destruct (Z.ltb_spec (clock (db self) (tick (db self))) expires_at); [lia|].
    rewrite drop_then_miss_no_loader.
    eexists. split; [done|]. destruct self as [[] ? []]. run.
    rewrite <- ?app_assoc. split_and!; [done..|].
    intros k ??. by rewrite !lookup_delete_ne.
Qed.

(** *** The sweep [clear_expired] *)

(** The loop stops at the first foreign key; in a scan nothing is lost by
    that, so it may as well run over the entries that carry the prefix. *)
Lemma collect_expired_with_prefix current_time entries expired_keys :
  StronglySorted key_le entries →
  Forall (λ e : string * bytes, String.leb metadata_prefix e.1) entries →
  collect_expired current_time entries expired_keys =
  collect_expired current_time (with_prefix metadata_prefix entries) expired_keys.
Proof.
  intros Hsorted Hge. revert expired_keys.
  induction entries as [|[k v] rest IH]; intros acc; [done|].
  apply Forall_cons in Hge as [Hk Hge].
  destruct (startswith k metadata_prefix) eqn:Hp.
  - unfold with_prefix. rewrite filter_cons_True by (cbn [fst]; by rewrite Hp).
    fold (with_prefix metadata_prefix rest).
    apply StronglySorted_cons in Hsorted as [_ Hsorted].
    cbn [collect_expired]. rewrite Hp. cbn [negb].
    destruct (json_loads v); [|done].
    destruct (getitem _ "expires_at"); [|done].
    destruct (datetime_fromisoformat _); [|done].
    destruct (_ >? _); [|by apply IH].
    destruct (getitem _ "key"); [|done]. by apply IH.
  - unfold with_prefix.
    rewrite filter_cons_False by (cbn [fst]; rewrite Hp; intros []).
    fold (with_prefix metadata_prefix rest).
    rewrite (with_prefix_after_foreign metadata_prefix (k, v) rest) by done.
    cbn [collect_expired]. by rewrite Hp.
Qed.

(** On well-formed metadata entries the loop cannot fail: it appends the
    logical key of every entry with [current_time > expires_at]. *)
Lemma collect_expired_well_formed current_time entries expired_keys :
  Forall (λ e : string * bytes,
            startswith e.1 metadata_prefix ∧
            ∃ key d expires_at,
              loads e.2 = Some (JDict d) ∧
              d !! "key" = Some (JStr key) ∧
              d !! "expires_at" = Some (JStr (isoformat expires_at))) entries →
  collect_expired current_time entries expired_keys =
  Return (expired_keys ++ (JStr <$> omap (expired_key current_time) entries)).
Proof.
  intros Hwf. revert expired_keys.
  induction Hwf as [|[k v] rest (Hp & key & d & t & Hl & Hkey & Hexp) _ IH]; intros acc.
  { cbn. by rewrite app_nil_r. }
  cbn [fst snd] in *. cbn [collect_expired omap list_omap].
  apply Is_true_true_1 in Hp. rewrite Hp. cbn [negb].
  unfold expired_key. cbn [snd].
  rewrite (json_loads_Return _ _ Hl), Hl. cbn [getitem]. rewrite Hexp, Hkey.
  rewrite fromisoformat_JStr, fromisoformat_isoformat.
  destruct (current_time >? t); [|apply IH].
  rewrite IH. cbn [fmap list_fmap]. by rewrite <- app_assoc.
Qed.

Lemma delete_pairs_keys keys :
  flat_map delete_pair (JStr <$> keys) =
  BDelete <$> flat_map (λ key, [cache_prefix +:+ key; metadata_prefix +:+ key]) keys.
Proof.
  induction keys as [|key keys IH]; [done|].
  cbn [fmap list_fmap flat_map app]. rewrite <- IH.
  unfold delete_pair at 1. by rewrite format_str_JStr.
Qed.

(** (X11) What the sweep does on a well-formed store.  It removes exactly
    the entries with [expires_at < now] (an entry with [expires_at = now]
    stays), by one batch that deletes both records of each; it returns their
    number and adds it to the eviction counter; every other key keeps its
    value. *)
Theorem clear_expired_removes_strictly_expired (self : CacheLayer.t) :
  well_formed (store (db self)) →
  let w := db self in
  let now := clock w (tick w) in
  ∃ expired_keys self',
    clear_expired self = (Return (Z.of_nat (length expired_keys)), self') ∧
    NoDup expired_keys ∧
    (∀ key, key ∈ expired_keys ↔
            ∃ expires_at, expires_at_of (store w) key = Some expires_at ∧
                          expires_at < now) ∧
    (∀ key, key ∈ expired_keys →
            store (db self') !! (cache_prefix +:+ key) = None ∧
            store (db self') !! (metadata_prefix +:+ key) = None) ∧
    (∀ k, (∀ key, key ∈ expired_keys →
                  k ≠ cache_prefix +:+ key ∧ k ≠ metadata_prefix +:+ key) →
          store (db self') !! k = store w !! k) ∧
    evictions (stats self') = evictions (stats self) + Z.of_nat (length expired_keys) ∧
    calls (db self') =
      calls w ++ CallScan metadata_prefix ::
        match expired_keys with
        | [] => []
        | _ :: _ => [CallBatch (flat_map delete_pair (JStr <$> expired_keys))]
        end.
Proof.
  intros Hwf w now. subst w now.
  destruct self as [[st cl es ck tk tok dr] dttl [h m wr ev]].
  cbn [db store clock tick stats evictions calls] in *.
  set (entries := with_prefix metadata_prefix (scan_entries metadata_prefix st)).
  assert (Hentries : ∀ k b, (k, b) ∈ entries ↔ st !! k = Some b ∧ startswith k metadata_prefix)
    by apply with_prefix_scan_elem_of.
  assert (Hloop : collect_expired (ck tk) (scan_entries metadata_prefix st) [] =
                  Return (JStr <$> omap (expired_key (ck tk)) entries)).
  { rewrite collect_expired_with_prefix
      by auto using scan_entries_sorted, scan_entries_Forall_ge.
    rewrite collect_expired_well_formed; [done|].
    apply Forall_forall. intros [k b] [Hk Hp]%Hentries. split; [done|].
    destruct (Hwf k b Hp Hk) as (key & d & t & _ & ? & ? & ?). by exists key, d, t. }
  assert (Hfound : ∀ key, key ∈ omap (expired_key (ck tk)) entries ↔
            ∃ t, expires_at_of st key = Some t ∧ t < ck tk).
  { intros key. rewrite list_elem_of_omap. split.
    - intros ([k b] & [Hk Hp]%Hentries & He).
      destruct (Hwf k b Hp Hk) as (key' & d & t & -> & Hl & Hkey & Hexp).
      revert He. unfold expired_key, expires_at_of. cbn [snd].
      rewrite Hl, Hexp, Hkey, fromisoformat_isoformat.
      destruct (Z.gtb_spec (ck tk) t); [|done]. intros [= ->].
      rewrite Hk, Hl, Hexp, fromisoformat_isoformat. exists t. split; [done|lia].
    - intros (t & He & Hlt). revert He. unfold expires_at_of.
      destruct (st !! (metadata_prefix +:+ key)) as [b|] eqn:Hk; [|done].
      assert (Hp : startswith (metadata_prefix +:+ key) metadata_prefix)
        by apply string_prefix_app.
      destruct (Hwf _ b Hp Hk) as (key' & d & t' & Heq & Hl & Hkey & Hexp).
      apply string_app_inj in Heq as <-.
      rewrite Hl, Hexp, fromisoformat_isoformat. intros [= ->].
      exists (metadata_prefix +:+ key, b). split; [by apply Hentries|].
      unfold expired_key. cbn [snd]. rewrite Hl, Hexp, Hkey, fromisoformat_isoformat.
      by destruct (Z.gtb_spec (ck tk) t); [|lia]. }
  assert (Hnodup : NoDup (omap (expired_key (ck tk)) entries)).
  { assert (Hkeys : ∀ e key, e ∈ entries → expired_key (ck tk) e = Some key →
                             e.1 = metadata_prefix +:+ key).
    { intros [k b] key [Hk Hp]%Hentries He.
      destruct (Hwf k b Hp Hk) as (key' & d & t & -> & Hl & Hkey & Hexp).
      revert He. unfold expired_key. cbn [snd].
      rewrite Hl, Hexp, Hkey, fromisoformat_isoformat.
      by destruct (_ >? _); intros [= ->]. }
    pose proof (with_prefix_scan_NoDup metadata_prefix st) as Hnd.
    fold entries in Hnd. clear Hentries Hloop Hfound.
    induction entries as [|e rest IH]; [constructor|].
    cbn [fmap list_fmap] in Hnd. apply NoDup_cons in Hnd as [Hfresh Hnd].
    cbn [omap list_omap]. destruct (expired_key (ck tk) e) as [key|] eqn:He.
    - apply NoDup_cons. split.
      + intros (e' & Hin & He')%list_elem_of_omap. apply Hfresh.
        apply list_elem_of_fmap. exists e'. split; [|done].
        rewrite (Hkeys e key) by (done || left).
        symmetry. apply Hkeys; [by right|done].
      + apply IH; [|done]. intros e' key' ?. apply Hkeys. by right.
    - apply IH; [|done]. intros e' key' ?. apply Hkeys. by right. }
  exists (omap (expired_key (ck tk)) entries).
  unfold clear_expired. run. rewrite Hloop. run. rewrite length_fmap.
  destruct (omap (expired_key (ck tk)) entries) as [|key keys] eqn:Hkeys.
  - cbn [fmap list_fmap]. run. eexists. split; [done|]. cbn [db stats store calls evictions].
    split_and!; try done.
    + intros key []%elem_of_nil.
    + cbn. lia.
  - set (found := key :: keys) in *. cbn [fmap list_fmap].
    fold (JStr <$> keys). change (JStr key :: (JStr <$> keys)) with (JStr <$> found).
    rewrite delete_pairs_keys.
    run. eexists. split; [done|]. run.
    change (foldl apply_op st ?ops) with (apply_batch ops st).
    split_and!; try done.
    + intros key' Hin. rewrite !apply_deletes_lookup.
      assert (cache_prefix +:+ key' ∈
                flat_map (λ key, [cache_prefix +:+ key; metadata_prefix +:+ key]) found ∧
              metadata_prefix +:+ key' ∈
                flat_map (λ key, [cache_prefix +:+ key; metadata_prefix +:+ key]) found)
        as [??].
      { split; apply list_elem_of_In, in_flat_map; exists key';
          (split; [by apply list_elem_of_In|]); [left|right; left]; done. }
      by rewrite !decide_True.
    + intros k Hk. rewrite apply_deletes_lookup, decide_False; [done|].
      intros (key' & Hin & Hk')%list_elem_of_In%in_flat_map.
      apply list_elem_of_In in Hin. destruct (Hk key' Hin) as [??].
      by destruct Hk' as [<-|[<-|[]]].
    + by rewrite <- app_assoc.
Qed.

(** *** The paired-record invariant

    Every method of the class takes a store in which the two records of each
    logical key exist together or not at all to another such store.  [set],
    [delete], [warm_cache] and [clear_expired] do so through one batch; the
    lazy-expiry path of [get] does so through two point deletes. *)

Lemma delete_run key self :
  let ops := [BDelete (cache_prefix +:+ key); BDelete (metadata_prefix +:+ key)] in
  CacheLayer.delete key self =
  (Return (),
   set_stats (add_evictions 1 (stats self))
     (set_db (with_store (apply_batch ops) (CallBatch ops) (db self)) self)).
Proof. reflexivity. Qed.

Lemma warm_cache_run data_dict ttl self :
  let w := db self in
  let ops :=
    flat_map (warm_pair (clock w (tick w)) (int_or ttl (default_ttl self))) data_dict in
  warm_cache data_dict ttl self =
  (Return (Z.of_nat (length data_dict)),
   set_stats (add_writes (Z.of_nat (length data_dict)) (stats self))
     (set_db (with_store (apply_batch ops) (CallBatch ops)
                (at_tick (S (tick w)) w)) self)).
Proof. reflexivity. Qed.

Lemma paired_put key value_bytes meta_bytes (m : gmap string bytes) :
  paired m →
  paired (<[metadata_prefix +:+ key := meta_bytes]> (<[cache_prefix +:+ key := value_bytes]> m)).
Proof.
  intros Hm key'. destruct (decide (key' = key)) as [->|Hne].
  - rewrite lookup_insert_ne by discriminate. rewrite !lookup_insert_eq.
    split; by eexists.
  - rewrite lookup_insert_ne by discriminate.
    rewrite lookup_insert_ne by (by intros ?%string_app_inj).
    rewrite lookup_insert_ne by (by intros ?%string_app_inj).
    rewrite lookup_insert_ne by discriminate. apply Hm.
Qed.

Lemma paired_drop key (m : gmap string bytes) :
  paired m →
  paired (base.delete (metadata_prefix +:+ key) (base.delete (cache_prefix +:+ key) m)).
Proof.
  intros Hm key'. destruct (decide (key' = key)) as [->|Hne].
  - rewrite lookup_delete_ne by discriminate. rewrite !lookup_delete_eq.
    split; by intros [].
  - rewrite lookup_delete_ne by discriminate.
    rewrite lookup_delete_ne by (by intros ?%string_app_inj).
    rewrite lookup_delete_ne by (by intros ?%string_app_inj).
    rewrite lookup_delete_ne by discriminate. apply Hm.
Qed.

Lemma paired_flat_map {A} (f : A → list batch_op) l (m : gmap string bytes) :
  (∀ x m', paired m' → paired (apply_batch (f x) m')) →
  paired m → paired (apply_batch (flat_map f l) m).
Proof.
  intros Hf. revert m. induction l as [|x l IH]; intros m Hm; [done|].
  cbn [flat_map]. unfold apply_batch. rewrite foldl_app. apply IH. by apply Hf.
Qed.

Lemma set_paired key value ttl self :
  paired (store (db self)) → paired (store (db (CacheLayer.set key value ttl self).2)).
Proof. rewrite set_run. destruct self as [[] ? ?]. run. apply paired_put. Qed.

Lemma delete_paired key self :
  paired (store (db self)) → paired (store (db (CacheLayer.delete key self).2)).
Proof. rewrite delete_run. destruct self as [[] ? ?]. run. apply paired_drop. Qed.

Lemma warm_cache_paired data_dict ttl self :
  paired (store (db self)) → paired (store (db (warm_cache data_dict ttl self).2)).
Proof.
  rewrite warm_cache_run. destruct self as [[st ? ? ck tk ? ?] ? ?]. cbn [snd].
  unfold set_stats, set_db, with_store, at_tick. cbn [db store].
  apply paired_flat_map. intros [key value] m'. apply paired_put.
Qed.

Lemma clear_expired_paired self :
  paired (store (db self)) → paired (store (db (clear_expired self).2)).
Proof.
  destruct self as [[st cl es ck tk tok dr] dttl sts]. unfold clear_expired. run.
  destruct (collect_expired _ _ _) as [[|i ids]|e]; run; try done.
  change (foldl apply_op st ?ops) with (apply_batch ops st).
  apply (paired_flat_map delete_pair (i :: ids)). intros id m'. apply paired_drop.
Qed.

Lemma get_paired key ttl self :
  paired (store (db self)) →
  paired (store (db (CacheLayer.get key None ttl self).2)).
Proof.
  destruct self as [[st cl es ck tk tok dr] dttl sts]. unfold CacheLayer.get. run.
  intros Hm. destruct (nonempty (st !! _)) as [cached|]; run; [|done].
  destruct (nonempty (st !! _)) as [meta|]; run; [|by apply paired_drop].
  destruct (json_loads meta); run; [|done].
  destruct (getitem _ _); run; [|done].
  destruct (datetime_fromisoformat _); run; [|done].
  destruct (_ <? _); run; [|by apply paired_drop].
  by destruct (json_loads cached).
Qed.

End cache_theorems.

(** ** [SessionStore]: the methods on an arbitrary instance *)

Section session_theorems.
Context `{!Runtime}.
Import SessionStore.

(** [get_session] when nothing (or [b""]) is stored under the key. *)
Lemma get_session_absent session_id self :
  let key := session_prefix +:+ session_id in
  nonempty (store (db self) !! key) = None →
  get_session session_id self =
  (Return JNull, set_db (with_store id (CallGet key) (db self)) self).
Proof.
  intros key. destruct self as [[st cl es ck tk tok dr] ttl]. cbn [db store].
  intros Hs. unfold get_session. run. fold key. by rewrite Hs.
Qed.







(** *** The key discipline is an invariant of the class *)

Lemma session_keyed_empty : session_keyed ∅.
Proof. intros k b d sid _ Hk. by rewrite lookup_empty in Hk. Qed.

Lemma session_keyed_subseteq (m m' : gmap string bytes) :
  (∀ k b, m' !! k = Some b → m !! k = Some b) →
  session_keyed m → session_keyed m'.
Proof. intros Hsub Hm k b d sid Hp Hk. by eapply Hm; [|apply Hsub|..]. Qed.

Lemma session_keyed_delete k (m : gmap string bytes) :
  session_keyed m → session_keyed (delete k m).
Proof.
  apply session_keyed_subseteq. intros k' b Hk.
  by apply lookup_delete_Some in Hk as [_ ?].
Qed.

Lemma session_keyed_insert k b (m : gmap string bytes) :
  session_keyed m →
  (∀ d sid, loads b = Some (JDict d) → d !! "session_id" = Some sid →
            k = session_prefix +:+ format_str sid) →
  session_keyed (<[k := b]> m).
Proof.
  intros Hm Hb k' b' d sid Hp Hk Hl Hid.
  apply lookup_insert_Some in Hk as [[<- <-]|[_ Hk]]; [by eapply Hb|by eapply Hm].
Qed.

Lemma session_key_startswith session_id :
  startswith (session_prefix +:+ session_id) session_prefix.
Proof. by destruct session_id. Qed.

Lemma create_session_keyed user_id data self :
  session_keyed (store (db self)) →
  session_keyed (store (db (create_session user_id data self).2)).
Proof.
  destruct self as [[st cl es ck tk tok dr] ttl]. unfold create_session. run.
  intros Hm. apply session_keyed_insert; [done|].
  intros d sid. rewrite loads_dumps. intros [= <-].
  unfold session_dict. rewrite lookup_insert_eq. intros [= <-].
  by rewrite format_str_JStr.
Qed.

Lemma get_session_keyed session_id self :
  session_keyed (store (db self)) →
  session_keyed (store (db (get_session session_id self).2)).
Proof.
  destruct self as [[st cl es ck tk tok dr] ttl]. unfold get_session. run.
  intros Hm. destruct (nonempty _) as [sb|] eqn:Hs; [|done]. run.
  apply nonempty_Some_inv in Hs.
  unfold json_loads. destruct (loads sb) as [sd|] eqn:Hl; [|done]. run.
  destruct (getitem sd "last_accessed") as [f|] eqn:Hf; [|done]. run.
  destruct (datetime_fromisoformat f) as [la|]; [|done]. run.
  destruct (_ >? _); run; [by apply session_keyed_delete|].
  destruct sd; try done. cbn [setitem]. run.
  apply session_keyed_insert; [done|].
  intros d' sid. rewrite loads_dumps. intros [= <-].
  rewrite lookup_insert_ne by done. intros Hid.
  by eapply Hm; [apply session_key_startswith|..].
Qed.

Lemma update_session_keyed session_id data self :
  session_keyed (store (db self)) →
  session_keyed (store (db (update_session session_id data self).2)).
Proof.
  intros Hm. apply (get_session_keyed session_id) in Hm as Hm'.
  unfold update_session, bind.
  destruct (get_session session_id self) as [[sd|e] self1] eqn:Hg; [|done].
  cbn [snd] in Hm'. destruct (truthy sd); cbn [negb ret snd]; [|done].
  destruct self1 as [[st cl es ck tk tok dr] ttl]. run.
  destruct (getitem sd "data") as [fields|] eqn:Hd; [|done]. run.
  destruct (dict_update fields data) as [fields'|]; [|done]. run.
  destruct sd as [| | | | |d]; try done. cbn [setitem]. run.
  apply session_keyed_insert; [done|].
  intros d' sid. rewrite loads_dumps. intros [= <-].
  rewrite !lookup_insert_ne by done. intros Hid.
  destruct self as [[st0 cl0 es0 ck0 tk0 tok0 dr0] ttl0].
  revert Hg. unfold get_session. run.
  destruct (nonempty _) as [sb|] eqn:Hs; [|done]. run.
  apply nonempty_Some_inv in Hs.
  unfold json_loads. destruct (loads sb) as [sd0|] eqn:Hl; [|done]. run.
  destruct (getitem sd0 "last_accessed") as [f|] eqn:Hf; [|done]. run.
  destruct (datetime_fromisoformat f) as [la|]; [|done]. run.
  destruct (_ >? _); run; [done|].
  destruct sd0 as [| | | | |d0]; try done. cbn [setitem]. run.
  intros [= <- <- <- <- <- <- <- <- <-].
  rewrite lookup_insert_ne in Hid by done.
  by eapply Hm; [apply session_key_startswith|..].
Qed.

Lemma delete_session_keyed session_id self :
  session_keyed (store (db self)) →
  session_keyed (store (db (delete_session session_id self).2)).
Proof. destruct self as [[] ?]. run. apply session_keyed_delete. Qed.

Lemma cleanup_expired_sessions_keyed self :
  session_keyed (store (db self)) →
  session_keyed (store (db (cleanup_expired_sessions self).2)).
Proof.
  destruct self as [[st cl es ck tk tok dr] ttl].
  unfold cleanup_expired_sessions. run.
  destruct (collect_expired _ _ _ _) as [[|i ids]|e]; run; try done.
  apply session_keyed_subseteq. intros k b.
  apply apply_deletes_lookup_Some, Forall_map, Forall_true. by eexists.
Qed.

(** Every id that the sweep collects comes from a scanned session record
    whose age exceeds the time-to-live. *)
Lemma collect_expired_sound current_time ttl entries acc ids session_id :
  collect_expired current_time ttl entries acc = Return ids →
  session_id ∈ ids →
  session_id ∈ acc ∨
  ∃ key value d field last_accessed,
    (key, value) ∈ entries ∧
    startswith key session_prefix ∧
    loads value = Some (JDict d) ∧
    d !! "last_accessed" = Some field ∧
    datetime_fromisoformat field = Return last_accessed ∧
    timedelta ttl < current_time - last_accessed ∧
    d !! "session_id" = Some session_id.
Proof.
  revert acc. induction entries as [|[key value] rest IH]; intros acc; cbn [collect_expired].
  { intros [= ->]. by left. }
  destruct (startswith key session_prefix) eqn:Hp; cbn [negb]; [|intros [= ->]; by left].
  unfold json_loads. destruct (loads value) as [sd|] eqn:Hl; [|done].
  destruct sd as [| | | | |d]; try done. cbn [getitem].
  destruct (d !! "last_accessed") as [field|] eqn:Hf; [|done].
  destruct (datetime_fromisoformat field) as [la|] eqn:Ha; [|done].
  destruct (Z.gtb_spec (current_time - la) (timedelta ttl)) as [Hold|_].
  - destruct (d !! "session_id") as [sid|] eqn:Hid; [|done].
    intros Hrest Hin. destruct (IH _ Hrest Hin) as [Hacc|Hfound].
    + apply elem_of_app in Hacc as [?|Hnew]; [by left|].
      apply list_elem_of_singleton in Hnew as ->.
      right. exists key, value, d, field, la. rewrite Hp.
      split_and!; try done. left.
    + right. destruct Hfound as (key' & value' & ? & ? & ? & ? & ?).
      exists key', value'. eexists _, _, _. split; [by right|done].
  - intros Hrest Hin. destruct (IH _ Hrest Hin) as [?|Hfound]; [by left|].
    right. destruct Hfound as (key' & value' & ? & ? & ? & ? & ?).
    exists key', value'. eexists _, _, _. split; [by right|done].
Qed.

(** (C10) When every session record names its own key, the sweep
    [cleanup_expired_sessions] adds and rewrites nothing, removes only
    session records whose age [now - last_accessed] exceeds [ttl_seconds], and
    leaves every live session record under its key with the very bytes it had
    (so its [last_accessed] is not refreshed). *)
Theorem cleanup_keeps_live_sessions (self : SessionStore.t) :
  session_keyed (store (db self)) →
  let w := db self in
  let now := clock w (tick w) in
  let self' := (cleanup_expired_sessions self).2 in
  (∀ k b, store (db self') !! k = Some b → store w !! k = Some b) ∧
  (∀ k b,
     store w !! k = Some b → store (db self') !! k = None →
     ∃ d field last_accessed,
       startswith k session_prefix ∧
       loads b = Some (JDict d) ∧
       d !! "last_accessed" = Some field ∧
       datetime_fromisoformat field = Return last_accessed ∧
       timedelta (ttl_seconds self) < now - last_accessed) ∧
  (∀ session_id b d field last_accessed,
     store w !! (session_prefix +:+ session_id) = Some b →
     loads b = Some (JDict d) →
     d !! "last_accessed" = Some field →
     datetime_fromisoformat field = Return last_accessed →
     now - last_accessed ≤ timedelta (ttl_seconds self) →
     store (db self') !! (session_prefix +:+ session_id) = Some b).
Proof.
  intros Hkeyed w now self'.
  assert (Hdeletes : ∀ ids, Forall (λ o, is_Some (delete_key o)) (map delete_op ids)).
  { intros ids. apply Forall_map, Forall_true. by eexists. }
  assert (Hsub : ∀ k b, store (db self') !! k = Some b → store w !! k = Some b).
  { subst self' w. destruct self as [[st cl es ck tk tok dr] ttl].
    unfold cleanup_expired_sessions. run.
    destruct (collect_expired _ _ _ _) as [[|i ids]|e]; run; try done.
    intros k b. by apply apply_deletes_lookup_Some. }
  assert (Hgone : ∀ k b,
     store w !! k = Some b → store (db self') !! k = None →
     ∃ d field last_accessed,
       startswith k session_prefix ∧ loads b = Some (JDict d) ∧
       d !! "last_accessed" = Some field ∧
       datetime_fromisoformat field = Return last_accessed ∧
       timedelta (ttl_seconds self) < now - last_accessed).
  { subst self' w now. destruct self as [[st cl es ck tk tok dr] ttl].
    cbn [db store clock tick ttl_seconds] in *.
    unfold cleanup_expired_sessions. run.
    destruct (collect_expired _ _ _ _) as [[|i ids]|e] eqn:Hc; run;
      try (intros k b ??; congruence).
    intros k b Hk Hnone.
    eapply apply_deletes_lookup_None in Hnone; [|done..].
    apply list_elem_of_fmap in Hnone as (sid & [= ->] & Hsid).
    destruct (collect_expired_sound _ _ _ _ _ _ Hc Hsid)
      as [[]%elem_of_nil|(key & value & d & field & la & Hin & Hp & Hl & Hf & Ha & Hold & Hid)].
    apply scan_entries_lookup in Hin.
    pose proof (Hkeyed _ _ _ _ Hp Hin Hl Hid) as ->.
    rewrite Hin in Hk. injection Hk as <-.
    by exists d, field, la. }
  split_and!; [done..|].
  intros sid b d field la Hk Hl Hf Ha Hlive.
  destruct (store (db self') !! (session_prefix +:+ sid)) as [b'|] eqn:Hk'.
  - apply Hsub in Hk'. congruence.
  - destruct (Hgone _ _ Hk Hk') as (d' & field' & la' & _ & Hl' & Hf' & Ha' & Hold).
    rewrite Hl in Hl'. injection Hl' as <-. rewrite Hf in Hf'. injection Hf' as <-.
    rewrite Ha in Ha'. injection Ha' as <-. lia.
Qed.

End session_theorems.

(** ** Statistics *)

Section stats_theorems.
Context `{!Runtime}.

(** (C9) [CacheLayer.get_stats] and [SessionStore.get_stats] only observe:
    whatever the store holds (expired entries that were never swept
    included) and whether the call returns or raises, the store contents, the
    four counters and the configuration are the same afterwards, and every
    call issued to the store is a read. *)
Theorem get_stats_only_observes :
  (∀ self : CacheLayer.t,
     let self' := (CacheLayer.get_stats self).2 in
     store (CacheLayer.db self') = store (CacheLayer.db self) ∧
     CacheLayer.stats self' = CacheLayer.stats self ∧
     CacheLayer.default_ttl self' = CacheLayer.default_ttl self ∧
     ∃ reads,
       calls (CacheLayer.db self') = calls (CacheLayer.db self) ++ reads ∧
       Forall is_read reads) ∧
  (∀ self : SessionStore.t,
     let self' := (SessionStore.get_stats self).2 in
     store (SessionStore.db self') = store (SessionStore.db self) ∧
     SessionStore.ttl_seconds self' = SessionStore.ttl_seconds self ∧
     ∃ reads,
       calls (SessionStore.db self') = calls (SessionStore.db self) ++ reads ∧
       Forall is_read reads).
Proof.
  split.
  - intros [[st cl es ck tk tok dr] dttl sts] self'. subst self'.
    unfold CacheLayer.get_stats. run.
    destruct (CacheLayer.count_entries _ _ _) as [counted|e]; run.
    + split_and!; try done. exists [CallScan CacheLayer.metadata_prefix; CallStats].
      rewrite <- app_assoc. split; [done|]. by repeat constructor.
    + split_and!; try done. exists [CallScan CacheLayer.metadata_prefix].
      split; [done|]. by repeat constructor.
  - intros [[st cl es ck tk tok dr] ttl] self'. subst self'.
    unfold SessionStore.get_stats. run.
    split_and!; try done. exists [CallScan SessionStore.session_prefix; CallStats].
    rewrite <- app_assoc. split; [done|]. by repeat constructor.
Qed.

End stats_theorems.

(** ** The methods on the reference runtime *)

(** Closes a conjunction of closed equations by evaluating both sides. *)
Ltac evaluated := cbv zeta; repeat split; vm_compute; reflexivity.

Section reference_runs.
Import CacheLayer.



(** (C7) The failing input: [CacheLayer(default_ttl=3600).set("k", {"v": 1},
    ttl=0)] at time 0.  The metadata record carries [ttl = 3600] and
    [expires_at] one hour after [created_at], not [created_at + 0]. *)
Theorem set_explicit_zero_ttl_takes_default :
  let self := fresh_cache 3600 (readings [0; 0]) in
  let self' := (CacheLayer.set "k" sample_value (Some 0) self).2 in
  store (db self') !! "meta:k" =
    Some (dumps (metadata_dict "k" 0 3600000000 3600 (dumps sample_value))) ∧
  0 + timedelta 3600 = 3600000000 ∧
  0 + timedelta 0 = 0.
Proof. evaluated. Qed.

(** (C2) The failing input: an entry written at time 0 with a time-to-live
    of 5 s, and [get("k")] at time 6 s.  The lazy-expiry path issues two
    separate point deletes and no batch; [between] is the store after the
    first of them, where [meta:k] exists without [cache:k]. *)
Theorem get_lazy_expiry_deletes_without_batch :
  let self := cache_with_k [6000000] in
  let self' := (CacheLayer.get "k" None None self).2 in
  let between := (on_db (db_delete "cache:k") self).2 in
  store (db self) !! "cache:k" = Some (dumps sample_value) ∧
  store (db self) !! "meta:k" =
    Some (dumps (metadata_dict "k" 0 5000000 5 (dumps sample_value))) ∧
  calls (db self') =
    calls (db self) ++ [CallGet "cache:k"; CallGet "meta:k";
                        CallDelete "cache:k"; CallDelete "meta:k"] ∧
  store (db between) !! "cache:k" = None ∧
  store (db between) !! "meta:k" = store (db self) !! "meta:k" ∧
  store (db self') !! "cache:k" = None ∧
  store (db self') !! "meta:k" = None.
Proof. evaluated. Qed.

(** (C3) The failing input: an entry whose [expires_at] is 5 s, and
    [clear_expired()] called exactly at 5 s.  Nothing is removed and 0 is
    returned, although [get("k")] at the same instant finds the entry
    expired. *)
Theorem clear_expired_keeps_entry_expiring_now :
  let self := cache_with_k [5000000] in
  let swept := CacheLayer.clear_expired self in
  store (db self) !! "meta:k" =
    Some (dumps (metadata_dict "k" 0 5000000 5 (dumps sample_value))) ∧
  clock (db self) (tick (db self)) = 5000000 ∧
  swept.1 = Return 0 ∧
  store (db swept.2) !! "cache:k" = store (db self) !! "cache:k" ∧
  store (db swept.2) !! "meta:k" = store (db self) !! "meta:k" ∧
  evictions (stats swept.2) = evictions (stats self) ∧
  (CacheLayer.get "k" None None self).1 = Return JNull ∧
  misses (stats (CacheLayer.get "k" None None self).2) = misses (stats self) + 1.
Proof. evaluated. Qed.

(** Counterexample to C4: [meta:k] is present and [cache:k] is missing.
    [get("k")] counts a miss and returns [None], but it reads only [cache:k],
    deletes nothing, and the orphan metadata record is still there. *)
Lemma get_leaves_orphan_metadata :
  let self := cache_with_orphan_metadata [1000000] in
  let result := CacheLayer.get "k" None None self in
  store (db self) !! "cache:k" = None ∧
  store (db self) !! "meta:k" =
    Some (dumps (metadata_dict "k" 0 5000000 5 (dumps sample_value))) ∧
  result.1 = Return JNull ∧
  misses (stats result.2) = misses (stats self) + 1 ∧
  calls (db result.2) = calls (db self) ++ [CallGet "cache:k"] ∧
  store (db result.2) !! "meta:k" = store (db self) !! "meta:k".
Proof. evaluated. Qed.

(** Witness for the amended C4, on the same state. *)
Lemma get_decides_from_value_record_witness :
  ∃ self',
    CacheLayer.get "k" None None (cache_with_orphan_metadata [1000000]) =
      (Return JNull, self') ∧
    store (db self') = store (db (cache_with_orphan_metadata [1000000])) ∧
    calls (db self') =
      calls (db (cache_with_orphan_metadata [1000000])) ++ [CallGet "cache:k"] ∧
    misses (stats self') = misses (stats (cache_with_orphan_metadata [1000000])) + 1 ∧
    hits (stats self') = hits (stats (cache_with_orphan_metadata [1000000])).
Proof.
  refine (proj2 (proj1 (get_decides_from_value_record
                          (cache_with_orphan_metadata [1000000]) "k" None None) _)).
  vm_compute. reflexivity.
Defined.

(** Counterexample to C8: [get("k")] with no loader on an expired entry
    returns [None] and writes: both records are deleted from the store. *)
Lemma get_no_loader_deletes_expired :
  let self := cache_with_k [6000000] in
  let result := CacheLayer.get "k" None None self in
  store (db self) !! "cache:k" = Some (dumps sample_value) ∧
  store (db self) !! "meta:k" =
    Some (dumps (metadata_dict "k" 0 5000000 5 (dumps sample_value))) ∧
  clock (db self) (tick (db self)) = 6000000 ∧
  result.1 = Return JNull ∧
  store (db result.2) !! "cache:k" = None ∧
  store (db result.2) !! "meta:k" = None ∧
  calls (db result.2) =
    calls (db self) ++ [CallGet "cache:k"; CallGet "meta:k";
                        CallDelete "cache:k"; CallDelete "meta:k"].
Proof. evaluated. Qed.

(** Witness for the amended C8, on the same expired entry. *)
Lemma get_no_loader_absent_or_expired_witness :
  ∃ self',
    CacheLayer.get "k" None None (cache_with_k [6000000]) = (Return JNull, self') ∧
    store (db self') =
      base.delete "meta:k" (base.delete "cache:k" (store (db (cache_with_k [6000000])))) ∧
    calls (db self') =
      calls (db (cache_with_k [6000000])) ++
        [CallGet "cache:k"; CallGet "meta:k"; CallDelete "cache:k"; CallDelete "meta:k"] ∧
    (∀ k, k ≠ "cache:k" → k ≠ "meta:k" →
          store (db self') !! k = store (db (cache_with_k [6000000])) !! k).
Proof.
  refine (proj2 (get_no_loader_absent_or_expired (cache_with_k [6000000]) "k" None)
            (dumps sample_value)
            (dumps (metadata_dict "k" 0 5000000 5 (dumps sample_value)))
            (metadata_dict "k" 0 5000000 5 (dumps sample_value))
            (JStr (isoformat 5000000)) 5000000 _ _ _ _ _ _);
    vm_compute; congruence.
Defined.

End reference_runs.

Section reference_sessions.
Import SessionStore.




Lemma sessions_with_two_keyed later :
  session_keyed (store (db (sessions_with_two later))).
Proof.
  unfold sessions_with_two, sessions_with_one.
  do 2 apply create_session_keyed. apply session_keyed_empty.
Qed.

(** Witness for C10: of two sessions, created at 0 s and at 8 s, the sweep at
    11 s (time-to-live 10 s) leaves the younger one with the bytes it had. *)
Lemma cleanup_keeps_live_sessions_witness :
  store (db (cleanup_expired_sessions (sessions_with_two [11000000])).2)
    !! "session:token-1" =
  Some (dumps (JDict (session_dict "token-1" "u2" 8000000 8000000 ∅))).
Proof.
  refine (proj2 (proj2 (cleanup_keeps_live_sessions (sessions_with_two [11000000])
                          (sessions_with_two_keyed _)))
            "token-1" _ (session_dict "token-1" "u2" 8000000 8000000 ∅)
            (JStr (isoformat 8000000)) 8000000 _ _ _ _ _);
    vm_compute; congruence.
Defined.

End reference_sessions.

(** ** [CacheLayer]: how the methods compose *)

(** Like [run], but the miss path of [get] stays folded. *)
Ltac run_to_miss :=
  repeat progress
    (unfold with_store, at_tick, CacheLayer.set_db, CacheLayer.set_stats,
       CacheLayer.elapse, CacheLayer.add_hits;
     cbn [bind ret raise lift_outcome modify fst snd id
          db_get db_delete datetime_now
          store calls engine_stats clock tick tokens drawn
          CacheLayer.on_db CacheLayer.self_attr CacheLayer.update_stats
          CacheLayer.db CacheLayer.default_ttl CacheLayer.stats
          CacheLayer.hits CacheLayer.misses CacheLayer.writes CacheLayer.evictions]).

Section cache_behaviour.
Context `{!Runtime}.
Import CacheLayer.

(** [get] on an entry as [set] and [warm_cache] write it: a hit while the
    clock is before [expires_at], the lazy-expiry path from then on. *)
Lemma get_written key loader_fn ttl self value created_at expires_at ttl0 value_bytes :
  let w := db self in
  store w !! (cache_prefix +:+ key) = Some (dumps value) →
  store w !! (metadata_prefix +:+ key) =
    Some (dumps (metadata_dict key created_at expires_at ttl0 value_bytes)) →
  let read :=
    set_db (at_tick (S (tick w))
              (with_store id (CallGet (metadata_prefix +:+ key))
                 (with_store id (CallGet (cache_prefix +:+ key)) w))) self in
  get key loader_fn ttl self =
  if clock w (tick w) <? expires_at
  then (Return value, set_stats (add_hits 1 (stats self)) read)
  else drop_then_miss key loader_fn ttl read.
Proof.
  intros w Hc Hm read. subst w read.
  erewrite get_checked;
    [|by rewrite Hc, nonempty_dumps|by rewrite Hm, nonempty_dumps
     |apply loads_dumps|apply metadata_expires|apply fromisoformat_JStr].
  by rewrite json_loads_dumps.
Qed.

(** (X1) [delete(key)] never fails: by one batch it removes both records of
    the key, adds one to the eviction counter (whether or not the entry
    existed) and leaves every other key alone.  A [get(key)] with no loader
    at any later time then returns [None], counts one miss and no hit, and
    writes nothing. *)
Theorem delete_then_get_misses (self : CacheLayer.t) key n ttl :
  let cache_key := cache_prefix +:+ key in
  let meta_key := metadata_prefix +:+ key in
  ∃ self1 self2,
    CacheLayer.delete key self = (Return (), self1) ∧
    evictions (stats self1) = evictions (stats self) + 1 ∧
    store (db self1) !! cache_key = None ∧
    store (db self1) !! meta_key = None ∧
    (∀ k, k ≠ cache_key → k ≠ meta_key → store (db self1) !! k = store (db self) !! k) ∧
    calls (db self1) =
      calls (db self) ++ [CallBatch [BDelete cache_key; BDelete meta_key]] ∧
    get key None ttl (elapse n self1) = (Return JNull, self2) ∧
    misses (stats self2) = misses (stats self) + 1 ∧
    hits (stats self2) = hits (stats self) ∧
    store (db self2) = store (db self1).
Proof.
  intros cache_key meta_key. subst cache_key meta_key.
  destruct self as [[st cl es ck tk tok dr] dttl [h m w e]].
  eexists _, _. split; [unfold CacheLayer.delete; run; reflexivity|].
  assert (Hgone : base.delete (metadata_prefix +:+ key)
                    (base.delete (cache_prefix +:+ key) st)
                    !! (cache_prefix +:+ key) = None).
  { rewrite lookup_delete_ne by discriminate. apply lookup_delete_eq. }
  rewrite get_value_missing by (run; by rewrite Hgone).
  rewrite miss_no_loader. run.
  split_and!; try done.
  - apply lookup_delete_eq.
  - intros k ??. by rewrite !lookup_delete_ne.
Qed.


(** The outcome of [get] with no loader depends on the store only through
    the two records of the key, and on the clock through one reading. *)
Lemma get_outcome_local key ttl ttl' self self' :
  store (db self) !! (cache_prefix +:+ key) = store (db self') !! (cache_prefix +:+ key) →
  store (db self) !! (metadata_prefix +:+ key) =
    store (db self') !! (metadata_prefix +:+ key) →
  clock (db self) (tick (db self)) = clock (db self') (tick (db self')) →
  (get key None ttl self).1 = (get key None ttl' self').1.
Proof.
  destruct self as [[st cl es ck tk tok dr] dttl sts].
  destruct self' as [[st' cl' es' ck' tk' tok' dr'] dttl' sts'].
  cbn [db store clock tick]. intros Hc Hm Hnow. unfold get. run.
  rewrite <- Hc. destruct (nonempty (st !! _)) as [cached|]; run; [|done].
  rewrite <- Hm. destruct (nonempty (st !! _)) as [meta|]; run; [|done].
  destruct (json_loads meta); run; [|done].
  destruct (getitem _ _); run; [|done].
  destruct (datetime_fromisoformat _); run; [|done].
  rewrite <- Hnow. destruct (_ <? _); run; [|done].
  by destruct (json_loads cached).
Qed.

(** (X2) When the value record is missing and the loader raises, [get] lets
    the exception through: the miss has been counted, [set] is not called,
    and the state is the one the loader left. *)
Theorem get_loader_failure (self : CacheLayer.t) key load ttl e after :
  let cache_key := cache_prefix +:+ key in
  let missed :=
    set_stats (add_misses 1 (stats self))
      (set_db (with_store id (CallGet cache_key) (db self)) self) in
  nonempty (store (db self) !! cache_key) = None →
  load missed = (Raise e, after) →
  get key (Some load) ttl self = (Raise e, after).
Proof.
  intros cache_key missed Hc Hload. rewrite get_value_missing by done.
  subst cache_key missed. revert Hload. destruct self as [[] ? []].
  unfold miss. run. unfold bind at 1. by intros ->.
Qed.


(** (X4) A hit returns the stored value whatever loader was passed, issues
    only the two reads and leaves the store as it was: the entry keeps its
    [expires_at].  So at any later reading at or past [expires_at] a [get]
    with no loader returns [None] and both records are gone, however
    recently the entry was read. *)
Theorem hit_does_not_extend_lifetime
    (self : CacheLayer.t) key loader_fn ttl value created_at expires_at ttl0 value_bytes :
  let cache_key := cache_prefix +:+ key in
  let meta_key := metadata_prefix +:+ key in
  let w := db self in
  store w !! cache_key = Some (dumps value) →
  store w !! meta_key =
    Some (dumps (metadata_dict key created_at expires_at ttl0 value_bytes)) →
  clock w (tick w) < expires_at →
  ∃ self1,
    get key loader_fn ttl self = (Return value, self1) ∧
    store (db self1) = store w ∧
    calls (db self1) = calls w ++ [CallGet cache_key; CallGet meta_key] ∧
    hits (stats self1) = hits (stats self) + 1 ∧
    misses (stats self1) = misses (stats self) ∧
    ∀ n ttl',
      expires_at ≤ clock w n →
      ∃ self2,
        get key None ttl' (elapse n self1) = (Return JNull, self2) ∧
        store (db self2) !! cache_key = None ∧
        store (db self2) !! meta_key = None ∧
        misses (stats self2) = misses (stats self) + 1.
Proof.
  intros cache_key meta_key w Hc Hm Hlive. subst cache_key meta_key w.
  erewrite get_written by done.
  destruct (Z.ltb_spec (clock (db self) (tick (db self))) expires_at); [|lia].
  eexists. split; [done|].
  destruct self as [[st cl es ck tk tok dr] dttl [h m wr ev]].
  cbn [db store clock tick] in *. run. rewrite <- ?app_assoc.
  split_and!; try done. intros n ttl' Hexp.
  erewrite get_written by done. run.
  destruct (Z.ltb_spec (ck n) expires_at); [lia|].
  run. eexists. split; [done|]. run.
  split_and!; try done.
  - rewrite lookup_delete_ne by discriminate. apply lookup_delete_eq.
  - apply lookup_delete_eq.
Qed.


Lemma apply_batch_app ops1 ops2 (m : gmap string bytes) :
  apply_batch (ops1 ++ ops2) m = apply_batch ops2 (apply_batch ops1 m).
Proof. unfold apply_batch. apply foldl_app. Qed.

(** What the batch of [warm_cache] leaves under the keys it does not list. *)
Lemma warm_batch_other current_time ttl data_dict (m : gmap string bytes) key :
  key ∉ data_dict.*1 →
  apply_batch (flat_map (warm_pair current_time ttl) data_dict) m
    !! (cache_prefix +:+ key) = m !! (cache_prefix +:+ key) ∧
  apply_batch (flat_map (warm_pair current_time ttl) data_dict) m
    !! (metadata_prefix +:+ key) = m !! (metadata_prefix +:+ key).
Proof.
  revert m. induction data_dict as [|[k v] rest IH]; intros m Hkey; [done|].
  apply not_elem_of_cons in Hkey as [Hne Hkey].
  cbn [flat_map]. rewrite apply_batch_app.
  destruct (IH (apply_batch (warm_pair current_time ttl (k, v)) m) Hkey) as [-> ->].
  cbn [warm_pair apply_batch foldl apply_op fst snd] in *.
  split.
  - rewrite lookup_insert_ne by discriminate.
    by rewrite lookup_insert_ne by (by intros ?%string_app_inj).
  - rewrite lookup_insert_ne by (by intros ?%string_app_inj).
    by rewrite lookup_insert_ne by discriminate.
Qed.



(** (X7) Entries are independent: what [get(key)] returns at a given clock
    reading is not changed by a [set] or a [delete] of another key, nor by a
    [warm_cache] that does not list the key. *)
Theorem other_keys_undisturbed (self : CacheLayer.t) key other n ttl :
  key ≠ other →
  (∀ value ttl0,
     (get key None ttl (elapse n (CacheLayer.set other value ttl0 self).2)).1 =
     (get key None ttl (elapse n self)).1) ∧
  (get key None ttl (elapse n (CacheLayer.delete other self).2)).1 =
  (get key None ttl (elapse n self)).1 ∧
  (∀ data_dict ttl0,
     key ∉ data_dict.*1 →
     (get key None ttl (elapse n (warm_cache data_dict ttl0 self).2)).1 =
     (get key None ttl (elapse n self)).1).
Proof.
  intros Hne. split_and!.
  - intros value ttl0. apply get_outcome_local.
    + rewrite set_run. destruct self as [[] ? ?]. run.
      rewrite lookup_insert_ne by discriminate.
      by rewrite lookup_insert_ne by (by intros ?%string_app_inj).
    + rewrite set_run. destruct self as [[] ? ?]. run.
      rewrite lookup_insert_ne by (by intros ?%string_app_inj).
      by rewrite lookup_insert_ne by discriminate.
    + rewrite set_run. by destruct self as [[] ? ?].
  - apply get_outcome_local.
    + rewrite delete_run. destruct self as [[] ? ?]. run.
      rewrite lookup_delete_ne by discriminate.
      by rewrite lookup_delete_ne by (by intros ?%string_app_inj).
    + rewrite delete_run. destruct self as [[] ? ?]. run.
      rewrite lookup_delete_ne by (by intros ?%string_app_inj).
      by rewrite lookup_delete_ne by discriminate.
    + rewrite delete_run. by destruct self as [[] ? ?].
  - intros data_dict ttl0 Hkey. rewrite warm_cache_run.
    destruct self as [[st cl es ck tk tok dr] dttl sts].
    destruct (warm_batch_other (ck tk) (int_or ttl0 dttl) data_dict st key Hkey)
      as [Hc Hm].
    by apply get_outcome_local.
Qed.


(** *** The invariants of the class *)

(** A property of the store contents that survives the two puts of an entry
    and the two deletes of an entry survives every method. *)
Section store_invariant.
Variable P : gmap string bytes → Prop.
Hypothesis P_put : ∀ key value created_at expires_at ttl m,
  P m →
  P (<[metadata_prefix +:+ key :=
         dumps (metadata_dict key created_at expires_at ttl (dumps value))]>
       (<[cache_prefix +:+ key := dumps value]> m)).
Hypothesis P_drop : ∀ key m,
  P m → P (base.delete (metadata_prefix +:+ key) (base.delete (cache_prefix +:+ key) m)).

Lemma apply_batch_flat_map_keeps {A} (f : A → list batch_op) l (m : gmap string bytes) :
  (∀ x m', P m' → P (apply_batch (f x) m')) →
  P m → P (apply_batch (flat_map f l) m).
Proof.
  intros Hf. revert m. induction l as [|x l IH]; intros m Hm; [done|].
  cbn [flat_map]. rewrite apply_batch_app. apply IH. by apply Hf.
Qed.

Lemma set_keeps key value ttl self :
  P (store (db self)) → P (store (db (CacheLayer.set key value ttl self).2)).
Proof. rewrite set_run. destruct self as [[] ? ?]. run. apply P_put. Qed.

Lemma delete_keeps key self :
  P (store (db self)) → P (store (db (CacheLayer.delete key self).2)).
Proof. rewrite delete_run. destruct self as [[] ? ?]. run. apply P_drop. Qed.

Lemma warm_cache_keeps data_dict ttl self :
  P (store (db self)) → P (store (db (warm_cache data_dict ttl self).2)).
Proof.
  rewrite warm_cache_run. destruct self as [[st ? ? ck tk ? ?] ? ?]. cbn [snd].
  unfold set_stats, set_db, with_store, at_tick. cbn [db store].
  apply apply_batch_flat_map_keeps. intros [key value] m'. apply P_put.
Qed.

Lemma clear_expired_keeps self :
  P (store (db self)) → P (store (db (clear_expired self).2)).
Proof.
  destruct self as [[st cl es ck tk tok dr] dttl sts]. unfold clear_expired. run.
  destruct (collect_expired _ _ _) as [[|i ids]|e]; run; try done.
  change (foldl apply_op st ?ops) with (apply_batch ops st).
  apply (apply_batch_flat_map_keeps delete_pair (i :: ids)). intros id m'. apply P_drop.
Qed.

Lemma get_stats_keeps self :
  P (store (db self)) → P (store (db (get_stats self).2)).
Proof.
  destruct self as [[st cl es ck tk tok dr] dttl sts]. unfold get_stats. run.
  by destruct (count_entries _ _ _).
Qed.

Lemma miss_keeps key loader_fn ttl self :
  (∀ load, loader_fn = Some load →
           ∀ s, P (store (db s)) → P (store (db (load s).2))) →
  P (store (db self)) →
  P (store (db (miss key loader_fn ttl self).2)).
Proof.
  intros Hload Hm. unfold miss, bind, update_stats, modify.
  destruct loader_fn as [load|]; [|by destruct self as [[] ? ?]].
  specialize (Hload load eq_refl (set_stats (add_misses 1 (stats self)) self)).
  destruct (load _) as [[value|e] loaded]; cbn [snd] in *.
  - pose proof (set_keeps key value ttl loaded) as Hset.
    destruct (CacheLayer.set key value ttl loaded) as [[|] ?]; cbn [snd ret] in *;
      apply Hset, Hload; by destruct self as [[] ? ?].
  - apply Hload. by destruct self as [[] ? ?].
Qed.

Lemma drop_then_miss_run key loader_fn ttl self :
  let cache_key := cache_prefix +:+ key in
  let meta_key := metadata_prefix +:+ key in
  drop_then_miss key loader_fn ttl self =
  miss key loader_fn ttl
    (set_db (with_store (base.delete meta_key) (CallDelete meta_key)
               (with_store (base.delete cache_key) (CallDelete cache_key) (db self)))
       self).
Proof. reflexivity. Qed.

Lemma get_keeps key loader_fn ttl self :
  (∀ load, loader_fn = Some load →
           ∀ s, P (store (db s)) → P (store (db (load s).2))) →
  P (store (db self)) →
  P (store (db (get key loader_fn ttl self).2)).
Proof.
  intros Hload Hm.
  assert (Hdrop : ∀ s, P (store (db s)) →
            P (store (db (drop_then_miss key loader_fn ttl s).2))).
  { intros s Hs. rewrite drop_then_miss_run. apply miss_keeps; [done|].
    destruct s as [[] ? ?]. by apply P_drop. }
  destruct self as [[st cl es ck tk tok dr] dttl sts]. unfold get. run_to_miss.
  destruct (nonempty (st !! _)) as [cached|]; [|by apply miss_keeps].
  run_to_miss.
  destruct (nonempty (st !! _)) as [meta|]; [|by apply Hdrop].
  run_to_miss. destruct (json_loads meta); run_to_miss; [|done].
  destruct (getitem _ _); run_to_miss; [|done].
  destruct (datetime_fromisoformat _); run_to_miss; [|done].
  destruct (_ <? _); [|by apply Hdrop].
  run_to_miss. by destruct (json_loads cached).
Qed.

(** Every method keeps it, [get] with a loader as long as the loader does. *)
Lemma methods_keep self :
  P (store (db self)) →
  (∀ key value ttl, P (store (db (CacheLayer.set key value ttl self).2))) ∧
  (∀ key, P (store (db (CacheLayer.delete key self).2))) ∧
  (∀ data_dict ttl, P (store (db (warm_cache data_dict ttl self).2))) ∧
  P (store (db (clear_expired self).2)) ∧
  P (store (db (get_stats self).2)) ∧
  (∀ key ttl, P (store (db (get key None ttl self).2))) ∧
  (∀ key load ttl,
     (∀ s, P (store (db s)) → P (store (db (load s).2))) →
     P (store (db (get key (Some load) ttl self).2))).
Proof.
  intros Hm. split_and!.
  - intros. by apply set_keeps.
  - intros. by apply delete_keeps.
  - intros. by apply warm_cache_keeps.
  - by apply clear_expired_keeps.
  - by apply get_stats_keeps.
  - intros. apply get_keeps; [|done]. by intros ? [=].
  - intros key load ttl Hload. apply get_keeps; [|done]. by intros ? [= <-].
Qed.

End store_invariant.

(** (X9) The paired-record invariant ([cache:K] exists exactly when
    [meta:K] does) is kept, call by call, by [set], [delete], [warm_cache],
    [clear_expired], [get_stats] and [get], with a loader as long as the
    loader keeps it. *)
Theorem paired_is_invariant (self : CacheLayer.t) :
  paired (store (db self)) →
  (∀ key value ttl, paired (store (db (CacheLayer.set key value ttl self).2))) ∧
  (∀ key, paired (store (db (CacheLayer.delete key self).2))) ∧
  (∀ data_dict ttl, paired (store (db (warm_cache data_dict ttl self).2))) ∧
  paired (store (db (clear_expired self).2)) ∧
  paired (store (db (get_stats self).2)) ∧
  (∀ key ttl, paired (store (db (get key None ttl self).2))) ∧
  (∀ key load ttl,
     (∀ s, paired (store (db s)) → paired (store (db (load s).2))) →
     paired (store (db (get key (Some load) ttl self).2))).
Proof.
  apply methods_keep.
  - intros. by apply paired_put.
  - intros. by apply paired_drop.
Qed.

Lemma well_formed_empty : well_formed ∅.
Proof. intros k b _ Hk. by rewrite lookup_empty in Hk. Qed.

Lemma well_formed_put key value_bytes created_at expires_at ttl vb (m : gmap string bytes) :
  well_formed m →
  well_formed (<[metadata_prefix +:+ key :=
                   dumps (metadata_dict key created_at expires_at ttl vb)]>
                 (<[cache_prefix +:+ key := value_bytes]> m)).
Proof.
  intros Hm k b Hp Hk.
  apply lookup_insert_Some in Hk as [[<- <-]|[_ Hk]].
  { exists key. eexists _, expires_at. rewrite loads_dumps. split_and!; [done..| |].
    - apply lookup_insert_eq.
    - by rewrite !lookup_insert_ne, lookup_insert_eq by done. }
  apply lookup_insert_Some in Hk as [[<- <-]|[_ Hk]]; [|by apply Hm].
  by simpl in Hp.
Qed.

Lemma well_formed_drop key (m : gmap string bytes) :
  well_formed m →
  well_formed (base.delete (metadata_prefix +:+ key) (base.delete (cache_prefix +:+ key) m)).
Proof.
  intros Hm k b Hp Hk.
  apply lookup_delete_Some in Hk as [_ Hk]. apply lookup_delete_Some in Hk as [_ Hk].
  by apply Hm.
Qed.

(** (X10) The data model of the metadata records (every [meta:K] record
    decodes to a dict that names [K] and carries an [expires_at] timestamp),
    which [clear_expired] relies on, is kept by every method of the class. *)
Theorem well_formed_is_invariant (self : CacheLayer.t) :
  well_formed (store (db self)) →
  (∀ key value ttl, well_formed (store (db (CacheLayer.set key value ttl self).2))) ∧
  (∀ key, well_formed (store (db (CacheLayer.delete key self).2))) ∧
  (∀ data_dict ttl, well_formed (store (db (warm_cache data_dict ttl self).2))) ∧
  well_formed (store (db (clear_expired self).2)) ∧
  well_formed (store (db (get_stats self).2)) ∧
  (∀ key ttl, well_formed (store (db (get key None ttl self).2))) ∧
  (∀ key load ttl,
     (∀ s, well_formed (store (db s)) → well_formed (store (db (load s).2))) →
     well_formed (store (db (get key (Some load) ttl self).2))).
Proof.
  apply methods_keep.
  - intros. by apply well_formed_put.
  - intros. by apply well_formed_drop.
Qed.

End cache_behaviour.

(** ** [CacheLayer.get_stats]: what the scan counts *)

Section cache_statistics.
Context `{!Runtime}.
Import CacheLayer.

(** The entries of a scan that carry the prefix are, up to their order, the
    entries of the store whose key carries it. *)
Lemma with_prefix_scan_Permutation prefix (m : gmap string bytes) :
  with_prefix prefix (scan_entries prefix m) ≡ₚ
  map_to_list (filter (λ kv : string * bytes, startswith kv.1 prefix) m).
Proof.
  apply NoDup_Permutation.
  - eapply NoDup_fmap_1, with_prefix_scan_NoDup.
  - apply NoDup_map_to_list.
  - intros [k b].
    rewrite with_prefix_scan_elem_of, elem_of_map_to_list, map_lookup_filter_Some.
    done.
Qed.

(** The loop of [get_stats] stops at the first foreign key; in a scan
    nothing is lost by that. *)
Lemma count_entries_with_prefix entries cached_entries total_size :
  StronglySorted key_le entries →
  Forall (λ e : string * bytes, String.leb metadata_prefix e.1) entries →
  count_entries entries cached_entries total_size =
  count_entries (with_prefix metadata_prefix entries) cached_entries total_size.
Proof.
  intros Hsorted Hge. revert cached_entries total_size.
  induction entries as [|[k v] rest IH]; intros c t; [done|].
  apply Forall_cons in Hge as [Hk Hge].
  destruct (startswith k metadata_prefix) eqn:Hp.
  - unfold with_prefix. rewrite filter_cons_True by (cbn [fst]; by rewrite Hp).
    fold (with_prefix metadata_prefix rest).
    apply StronglySorted_cons in Hsorted as [_ Hsorted].
    cbn [count_entries]. rewrite Hp. cbn [negb].
    destruct (json_loads v); [|done].
    destruct (dict_get _ _ _); [|done].
    destruct (int_add _ _); [|done]. by apply IH.
  - unfold with_prefix.
    rewrite filter_cons_False by (cbn [fst]; rewrite Hp; intros []).
    fold (with_prefix metadata_prefix rest).
    rewrite (with_prefix_after_foreign metadata_prefix (k, v) rest) by done.
    cbn [count_entries]. by rewrite Hp.
Qed.

(** When the loop returns, it has counted every entry. *)
Lemma count_entries_length entries cached_entries total_size counted :
  Forall (λ e : string * bytes, startswith e.1 metadata_prefix) entries →
  count_entries entries cached_entries total_size = Return counted →
  counted.1 = cached_entries + Z.of_nat (length entries).
Proof.
  intros Hp. revert cached_entries total_size.
  induction Hp as [|[k v] rest Hk _ IH]; intros c t; cbn [count_entries].
  { intros [= <-]. cbn. lia. }
  cbn [fst] in Hk. apply Is_true_true_1 in Hk. rewrite Hk. cbn [negb].
  destruct (json_loads v); [|done].
  destruct (dict_get _ _ _); [|done].
  destruct (int_add _ _); [|done].
  intros ->%IH. cbn [length]. lia.
Qed.



Lemma with_prefix_Forall prefix entries :
  Forall (λ e : string * bytes, startswith e.1 prefix) (with_prefix prefix entries).
Proof. apply Forall_forall. intros e Hin. by apply list_elem_of_filter in Hin as [? _]. Qed.

(** (X12) When [get_stats] returns, [current_entries] is the number of
    [meta:] keys in the store (value records are not looked at), the four
    counters are reported as they are, the engine metrics are read after the
    scan, and the hit rate is [0] when no request was counted and a
    percentage between [0] and [100] when the counters are not negative. *)
Theorem get_stats_counts_metadata_records (self : CacheLayer.t) snapshot :
  let w := db self in
  (get_stats self).1 = Return snapshot →
  current_entries snapshot =
    Z.of_nat (size (filter (λ kv : string * bytes, startswith kv.1 metadata_prefix)
                      (store w))) ∧
  cache_hits snapshot = hits (stats self) ∧
  cache_misses snapshot = misses (stats self) ∧
  total_writes snapshot = writes (stats self) ∧
  total_evictions snapshot = evictions (stats self) ∧
  snapshot_memtable_size snapshot =
    memtable_size (engine_stats w (calls w ++ [CallScan metadata_prefix])) ∧
  calls (db (get_stats self).2) = calls w ++ [CallScan metadata_prefix; CallStats] ∧
  (hits (stats self) + misses (stats self) ≤ 0 →
     hit_rate_percent snapshot = inject_Z 0) ∧
  (0 ≤ hits (stats self) → 0 ≤ misses (stats self) →
     (inject_Z 0 <= hit_rate_percent snapshot)%Q ∧
     (hit_rate_percent snapshot <= inject_Z 100)%Q).
Proof.
  intros w. subst w. destruct self as [[st cl es ck tk tok dr] dttl [h m wr ev]].
  unfold get_stats. run.
  destruct (count_entries _ _ _) as [counted|e] eqn:Hc; run; [|done].
  intros [= <-]. cbn. rewrite <- app_assoc. split_and!; try done.
  - rewrite count_entries_with_prefix in Hc
      by auto using scan_entries_sorted, scan_entries_Forall_ge.
    apply count_entries_length in Hc; [|apply with_prefix_Forall].
    rewrite Hc, with_prefix_scan_Permutation.
    by rewrite length_map_to_list, Z.add_0_l.
  - intros Hnone. by destruct (Z.gtb_spec (h + m) 0); [lia|].
  - intros Hh Hm. destruct (Z.gtb_spec (h + m) 0) as [Hpos|_]; [|done].
    destruct (h + m) as [|total|] eqn:Htotal; try lia.
    unfold Qle, Qdiv, Qmult, Qinv, inject_Z. cbn [Qnum Qden]. nia.
Qed.





End cache_statistics.

(** ** The cache on the reference runtime *)

Section reference_cache_behaviour.
Import CacheLayer.

(** Witness for X2: a new cache and a loader whose source is down. *)
Lemma get_loader_failure_witness :
  get "k" (Some failing_loader) None (fresh_cache 5 (readings [0])) =
  (Raise (Exception "source down"),
   set_stats (add_misses 1 (stats (fresh_cache 5 (readings [0]))))
     (set_db (with_store id (CallGet "cache:k") (db (fresh_cache 5 (readings [0]))))
        (fresh_cache 5 (readings [0])))).
Proof.
  apply (get_loader_failure (fresh_cache 5 (readings [0])) "k" failing_loader None);
    vm_compute; reflexivity.
Defined.


(** Witness for X4: the entry written at time 0 with a time-to-live of 5 s,
    read at 1 s. *)
Lemma hit_does_not_extend_lifetime_witness :
  let self := cache_with_k [1000000; 5000000] in
  ∃ self1,
    get "k" None None self = (Return sample_value, self1) ∧
    store (db self1) = store (db self) ∧
    calls (db self1) = calls (db self) ++ [CallGet "cache:k"; CallGet "meta:k"] ∧
    hits (stats self1) = hits (stats self) + 1 ∧
    misses (stats self1) = misses (stats self) ∧
    ∀ n ttl',
      5000000 ≤ clock (db self) n →
      ∃ self2,
        get "k" None ttl' (elapse n self1) = (Return JNull, self2) ∧
        store (db self2) !! "cache:k" = None ∧
        store (db self2) !! "meta:k" = None ∧
        misses (stats self2) = misses (stats self) + 1.
Proof.
  apply (hit_does_not_extend_lifetime (cache_with_k [1000000; 5000000]) "k" None None
           sample_value 0 5000000 5 (dumps sample_value)); vm_compute; reflexivity.
Defined.


(** Witness for X7: the keys ["k"] and ["j"]. *)
Lemma other_keys_undisturbed_witness :
  let self := cache_with_k [1000000] in
  (∀ value ttl0,
     (get "k" None None (elapse 2 (CacheLayer.set "j" value ttl0 self).2)).1 =
     (get "k" None None (elapse 2 self)).1) ∧
  (get "k" None None (elapse 2 (CacheLayer.delete "j" self).2)).1 =
  (get "k" None None (elapse 2 self)).1 ∧
  (∀ data_dict ttl0,
     "k" ∉ data_dict.*1 →
     (get "k" None None (elapse 2 (warm_cache data_dict ttl0 self).2)).1 =
     (get "k" None None (elapse 2 self)).1).
Proof.
  apply (other_keys_undisturbed (cache_with_k [1000000]) "k" "j" 2 None). discriminate.
Defined.


Lemma cache_with_k_paired later : paired (store (db (cache_with_k later))).
Proof.
  apply set_paired. intros key. unfold fresh_cache, fresh_world. cbn [db store].
  by rewrite !lookup_empty.
Qed.

Lemma cache_with_k_well_formed later : well_formed (store (db (cache_with_k later))).
Proof.
  unfold cache_with_k. rewrite set_run. apply well_formed_put, well_formed_empty.
Qed.

(** Witness for X9: the cache after one [set]. *)
Lemma paired_is_invariant_witness :
  let self := cache_with_k [] in
  (∀ key value ttl, paired (store (db (CacheLayer.set key value ttl self).2))) ∧
  (∀ key, paired (store (db (CacheLayer.delete key self).2))) ∧
  (∀ data_dict ttl, paired (store (db (warm_cache data_dict ttl self).2))) ∧
  paired (store (db (clear_expired self).2)) ∧
  paired (store (db (get_stats self).2)) ∧
  (∀ key ttl, paired (store (db (get key None ttl self).2))) ∧
  (∀ key load ttl,
     (∀ s, paired (store (db s)) → paired (store (db (load s).2))) →
     paired (store (db (get key (Some load) ttl self).2))).
Proof. exact (paired_is_invariant (cache_with_k []) (cache_with_k_paired [])). Defined.

(** Witness for X10: the cache after one [set]. *)
Lemma well_formed_is_invariant_witness :
  let self := cache_with_k [] in
  (∀ key value ttl, well_formed (store (db (CacheLayer.set key value ttl self).2))) ∧
  (∀ key, well_formed (store (db (CacheLayer.delete key self).2))) ∧
  (∀ data_dict ttl, well_formed (store (db (warm_cache data_dict ttl self).2))) ∧
  well_formed (store (db (clear_expired self).2)) ∧
  well_formed (store (db (get_stats self).2)) ∧
  (∀ key ttl, well_formed (store (db (get key None ttl self).2))) ∧
  (∀ key load ttl,
     (∀ s, well_formed (store (db s)) → well_formed (store (db (load s).2))) →
     well_formed (store (db (get key (Some load) ttl self).2))).
Proof.
  exact (well_formed_is_invariant (cache_with_k []) (cache_with_k_well_formed [])).
Defined.

(** Witness for X11: the entry that expires at 5 s, swept at 6 s. *)
Lemma clear_expired_removes_strictly_expired_witness :
  let self := cache_with_k [6000000] in
  ∃ expired_keys self',
    clear_expired self = (Return (Z.of_nat (length expired_keys)), self') ∧
    NoDup expired_keys ∧
    (∀ key, key ∈ expired_keys ↔
            ∃ expires_at, expires_at_of (store (db self)) key = Some expires_at ∧
                          expires_at < clock (db self) (tick (db self))) ∧
    (∀ key, key ∈ expired_keys →
            store (db self') !! (cache_prefix +:+ key) = None ∧
            store (db self') !! (metadata_prefix +:+ key) = None) ∧
    (∀ k, (∀ key, key ∈ expired_keys →
                  k ≠ cache_prefix +:+ key ∧ k ≠ metadata_prefix +:+ key) →
          store (db self') !! k = store (db self) !! k) ∧
    evictions (stats self') = evictions (stats self) + Z.of_nat (length expired_keys) ∧
    calls (db self') =
      calls (db self) ++ CallScan metadata_prefix ::
        match expired_keys with
        | [] => []
        | _ :: _ => [CallBatch (flat_map delete_pair (JStr <$> expired_keys))]
        end.
Proof.
  exact (clear_expired_removes_strictly_expired (cache_with_k [6000000])
           (cache_with_k_well_formed [6000000])).
Defined.

(** Witness for X12: the statistics after one [set]. *)
Lemma get_stats_counts_metadata_records_witness :
  let self := cache_with_k [] in
  let w := db self in
  current_entries snapshot_with_k =
    Z.of_nat (size (filter (λ kv : string * bytes, startswith kv.1 metadata_prefix)
                      (store w))) ∧
  cache_hits snapshot_with_k = hits (stats self) ∧
  cache_misses snapshot_with_k = misses (stats self) ∧
  total_writes snapshot_with_k = writes (stats self) ∧
  total_evictions snapshot_with_k = evictions (stats self) ∧
  snapshot_memtable_size snapshot_with_k =
    memtable_size (engine_stats w (calls w ++ [CallScan metadata_prefix])) ∧
  calls (db (get_stats self).2) = calls w ++ [CallScan metadata_prefix; CallStats] ∧
  (hits (stats self) + misses (stats self) ≤ 0 →
     hit_rate_percent snapshot_with_k = inject_Z 0) ∧
  (0 ≤ hits (stats self) → 0 ≤ misses (stats self) →
     (inject_Z 0 <= hit_rate_percent snapshot_with_k)%Q ∧
     (hit_rate_percent snapshot_with_k <= inject_Z 100)%Q).
Proof.
  apply (get_stats_counts_metadata_records (cache_with_k []) snapshot_with_k).
  vm_compute. reflexivity.
Defined.


End reference_cache_behaviour.

(** ** [SessionStore]: how the methods compose *)

Section session_behaviour.
Context `{!Runtime}.
Import SessionStore.

(** [create_session] never fails: one token is drawn, the clock is read
    twice and the record is put by one point write. *)
Lemma create_session_run user_id data self :
  let w := db self in
  let session_id := tokens w (drawn w) in
  let key := session_prefix +:+ session_id in
  let record :=
    dumps (JDict (session_dict session_id user_id (clock w (tick w))
                    (clock w (S (tick w))) (dict_or_empty data))) in
  create_session user_id data self =
  (Return session_id,
   set_db {| store := <[key := record]> (store w);
             calls := calls w ++ [CallSet key record];
             engine_stats := engine_stats w; clock := clock w;
             tick := S (S (tick w)); tokens := tokens w; drawn := S (drawn w) |} self).
Proof. reflexivity. Qed.



(** (X15) [delete_session] never fails and issues one point delete, also
    when the session does not exist; afterwards [get_session] returns [None]
    and [update_session] returns [False], both without writing, and deleting
    again changes nothing. *)
Theorem delete_session_then_absent (self : SessionStore.t) session_id n data :
  let w := db self in
  let key := session_prefix +:+ session_id in
  ∃ self1 self2 self3,
    delete_session session_id self = (Return (), self1) ∧
    store (db self1) = delete key (store w) ∧
    calls (db self1) = calls w ++ [CallDelete key] ∧
    get_session session_id (elapse n self1) = (Return JNull, self2) ∧
    store (db self2) = store (db self1) ∧
    update_session session_id data (elapse n self1) = (Return false, self3) ∧
    store (db self3) = store (db self1) ∧
    store (db (delete_session session_id self1).2) = store (db self1).
Proof.
  intros w key. subst w key.
  destruct self as [[st cl es ck tk tok dr] ttl].
  eexists _, _, _. split; [reflexivity|]. run.
  assert (Hgone : nonempty (delete (session_prefix +:+ session_id) st
                              !! (session_prefix +:+ session_id)) = None)
    by by rewrite lookup_delete_eq.
  unfold update_session, bind.
  rewrite get_session_absent by (run; exact Hgone).
  cbn [truthy negb ret]. run. split_and!; try done.
  apply delete_delete_eq.
Qed.



(** *** The data model is an invariant of the class *)


Lemma session_well_formed_empty : session_well_formed ∅.
Proof. intros k b _ Hk. by rewrite lookup_empty in Hk. Qed.


Lemma session_well_formed_insert session_id d user_id last_accessed data
    (m : gmap string bytes) :
  d !! "session_id" = Some (JStr session_id) →
  d !! "user_id" = Some (JStr user_id) →
  d !! "last_accessed" = Some (JStr (isoformat last_accessed)) →
  d !! "data" = Some (JDict data) →
  session_well_formed m →
  session_well_formed (<[session_prefix +:+ session_id := dumps (JDict d)]> m).
Proof.
  intros Hid Hu Hf Hd Hm k b Hp Hk.
  apply lookup_insert_Some in Hk as [[<- <-]|[_ Hk]]; [|by apply Hm].
  exists session_id, d, user_id, last_accessed, data. by rewrite loads_dumps.
Qed.

(** A well-formed record under the key of [session_id] names that session. *)
Lemma session_well_formed_lookup (m : gmap string bytes) session_id b :
  session_well_formed m →
  m !! (session_prefix +:+ session_id) = Some b →
  ∃ d user_id last_accessed data,
    loads b = Some (JDict d) ∧
    d !! "session_id" = Some (JStr session_id) ∧
    d !! "user_id" = Some (JStr user_id) ∧
    d !! "last_accessed" = Some (JStr (isoformat last_accessed)) ∧
    d !! "data" = Some (JDict data).
Proof.
  intros Hm Hk.
  destruct (Hm _ _ (session_key_startswith session_id) Hk)
    as (sid & d & u & la & data & Heq & ?).
  apply string_app_inj in Heq as <-. by exists d, u, la, data.
Qed.


Lemma create_session_well_formed user_id data self :
  session_well_formed (store (db self)) →
  session_well_formed (store (db (create_session user_id data self).2)).
Proof.
  rewrite create_session_run. destruct self as [[st cl es ck tk tok dr] ttl]. run.
  intros Hm.
  by apply (session_well_formed_insert (tok dr) _ user_id (ck (S tk)) (dict_or_empty data)).
Qed.






(** *** The scans *)

(** The ids a loop collects are distinct when each one determines the key
    of the entry it comes from. *)
Lemma NoDup_omap_by_key {A} (f : string * bytes → option A) (key_of : A → string)
    (entries : list (string * bytes)) :
  NoDup entries.*1 →
  (∀ e a, e ∈ entries → f e = Some a → e.1 = key_of a) →
  NoDup (omap f entries).
Proof.
  induction entries as [|e rest IH]; intros Hnd Hkeys; [constructor|].
  cbn [fmap list_fmap] in Hnd. apply NoDup_cons in Hnd as [Hfresh Hnd].
  cbn [omap list_omap]. destruct (f e) as [a|] eqn:He.
  - apply NoDup_cons. split.
    + intros (e' & Hin & He')%list_elem_of_omap. apply Hfresh.
      apply list_elem_of_fmap. exists e'. split; [|done].
      rewrite (Hkeys e a) by (done || left).
      symmetry. apply Hkeys; [by right|done].
    + apply IH; [done|]. intros e' a' ?. apply Hkeys. by right.
  - apply IH; [done|]. intros e' a' ?. apply Hkeys. by right.
Qed.

(** The scanned session records of a well-formed store. *)
Lemma session_entries_well_formed (m : gmap string bytes) :
  session_well_formed m →
  Forall (λ e : string * bytes,
            startswith e.1 session_prefix ∧
            ∃ session_id d user_id last_accessed data,
              e.1 = session_prefix +:+ session_id ∧
              loads e.2 = Some (JDict d) ∧
              d !! "session_id" = Some (JStr session_id) ∧
              d !! "user_id" = Some (JStr user_id) ∧
              d !! "last_accessed" = Some (JStr (isoformat last_accessed)) ∧
              d !! "data" = Some (JDict data))
    (with_prefix session_prefix (scan_entries session_prefix m)).
Proof.
  intros Hm. apply Forall_forall. intros [k b] [Hk Hp]%with_prefix_scan_elem_of.
  split; [done|]. by apply Hm.
Qed.

(** The loop of [get_user_sessions] stops at the first foreign key; in a
    scan nothing is lost by that. *)
Lemma collect_user_with_prefix user_id entries sessions :
  StronglySorted key_le entries →
  Forall (λ e : string * bytes, String.leb session_prefix e.1) entries →
  collect_user user_id entries sessions =
  collect_user user_id (with_prefix session_prefix entries) sessions.
Proof.
  intros Hsorted Hge. revert sessions.
  induction entries as [|[k v] rest IH]; intros acc; [done|].
  apply Forall_cons in Hge as [Hk Hge].
  destruct (startswith k session_prefix) eqn:Hp.
  - unfold with_prefix. rewrite filter_cons_True by (cbn [fst]; by rewrite Hp).
    fold (with_prefix session_prefix rest).
    apply StronglySorted_cons in Hsorted as [_ Hsorted].
    cbn [collect_user]. rewrite Hp. cbn [negb].
    destruct (json_loads v); [|done].
    destruct (getitem _ "user_id"); [|done].
    destruct (eq_str _ _); [|by apply IH].
    destruct (getitem _ "session_id"); [|done]. by apply IH.
  - unfold with_prefix.
    rewrite filter_cons_False by (cbn [fst]; rewrite Hp; intros []).
    fold (with_prefix session_prefix rest).
    rewrite (with_prefix_after_foreign session_prefix (k, v) rest) by done.
    cbn [collect_user]. by rewrite Hp.
Qed.

(** On well-formed session records the loop cannot fail: it appends the id
    of every record of the user. *)
Lemma collect_user_well_formed user_id entries sessions :
  Forall (λ e : string * bytes,
            startswith e.1 session_prefix ∧
            ∃ session_id d owner last_accessed data,
              e.1 = session_prefix +:+ session_id ∧
              loads e.2 = Some (JDict d) ∧
              d !! "session_id" = Some (JStr session_id) ∧
              d !! "user_id" = Some (JStr owner) ∧
              d !! "last_accessed" = Some (JStr (isoformat last_accessed)) ∧
              d !! "data" = Some (JDict data)) entries →
  collect_user user_id entries sessions =
  Return (sessions ++ (JStr <$> omap (owned_session user_id) entries)).
Proof.
  intros Hwf. revert sessions.
  induction Hwf as [|[k v] rest (Hp & sid & d & u & la & data & _ & Hl & Hid & Hu & _) _ IH];
    intros acc.
  { cbn. by rewrite app_nil_r. }
  cbn [fst snd] in *. cbn [collect_user omap list_omap].
  apply Is_true_true_1 in Hp. rewrite Hp. cbn [negb].
  unfold owned_session. cbn [snd].
  rewrite (json_loads_Return _ _ Hl), Hl. cbn [getitem]. rewrite Hu, Hid. cbn [eq_str].
  destruct (String.eqb u user_id); [|apply IH].
  rewrite IH. cbn [fmap list_fmap]. by rewrite <- app_assoc.
Qed.

(** On a well-formed store [get_user_sessions] cannot fail; it returns the
    ids of the sessions of the user, each once, and only reads. *)
Lemma get_user_sessions_run (self : SessionStore.t) user_id :
  session_well_formed (store (db self)) →
  let w := db self in
  ∃ sessions self',
    get_user_sessions user_id self = (Return (JStr <$> sessions), self') ∧
    NoDup sessions ∧
    (∀ session_id, session_id ∈ sessions ↔ user_of (store w) session_id = Some user_id) ∧
    store (db self') = store w ∧
    calls (db self') = calls w ++ [CallScan session_prefix].
Proof.
  intros Hwf w. subst w.
  destruct self as [[st cl es ck tk tok dr] ttl]. cbn [db store calls] in *.
  set (entries := with_prefix session_prefix (scan_entries session_prefix st)).
  pose proof (session_entries_well_formed st Hwf) as Hentries. fold entries in Hentries.
  exists (omap (owned_session user_id) entries). eexists.
  unfold get_user_sessions. run.
  rewrite collect_user_with_prefix
    by auto using scan_entries_sorted, scan_entries_Forall_ge.
  fold entries. rewrite collect_user_well_formed by done. cbn [app].
  split; [done|]. cbn [db store calls]. split_and!; [| |done..].
  - apply (NoDup_omap_by_key _ (λ sid, session_prefix +:+ sid)).
    { apply with_prefix_scan_NoDup. }
    intros [k b] sid Hin He.
    apply (proj1 (Forall_forall _ _) Hentries) in Hin
      as (_ & sid' & d & u & la & data & Hk & Hl & Hid & Hu & _).
    cbn [fst snd] in *. revert He. unfold owned_session. cbn [snd]. rewrite Hl, Hu, Hid.
    by destruct (String.eqb u user_id); intros [= <-].
  - intros sid. rewrite list_elem_of_omap. unfold user_of. split.
    + intros ([k b] & Hin & He). pose proof Hin as [Hk _]%with_prefix_scan_elem_of.
      apply (proj1 (Forall_forall _ _) Hentries) in Hin
        as (_ & sid' & d & u & la & data & Hkey & Hl & Hid & Hu & _).
      cbn [fst snd] in *. revert He. unfold owned_session. cbn [snd]. rewrite Hl, Hu, Hid.
      destruct (String.eqb_spec u user_id) as [->|]; [|done]. intros [= <-].
      subst k. by rewrite Hk, Hl, Hu.
    + destruct (st !! (session_prefix +:+ sid)) as [b|] eqn:Hk; [|done].
      destruct (session_well_formed_lookup _ _ _ Hwf Hk)
        as (d & u & la & data & Hl & Hid & Hu & _).
      rewrite Hl, Hu. intros [= ->].
      exists (session_prefix +:+ sid, b). split.
      * apply with_prefix_scan_elem_of. split; [done|]. apply session_key_startswith.
      * unfold owned_session. cbn [snd]. rewrite Hl, Hu, Hid.
        by rewrite String.eqb_refl.
Qed.

(** (X19) On a well-formed store [get_user_sessions(user_id)] cannot fail:
    it returns the ids of exactly the sessions whose record names that user,
    each once, issues one scan and writes nothing.  After
    [create_session(user_id, data)] the list contains the new id and every
    id it contained before. *)
Theorem get_user_sessions_lists_owner (self : SessionStore.t) user_id :
  session_well_formed (store (db self)) →
  let w := db self in
  ∃ sessions self',
    get_user_sessions user_id self = (Return (JStr <$> sessions), self') ∧
    NoDup sessions ∧
    (∀ session_id, session_id ∈ sessions ↔ user_of (store w) session_id = Some user_id) ∧
    store (db self') = store w ∧
    calls (db self') = calls w ++ [CallScan session_prefix] ∧
    ∀ data,
      ∃ sessions1 self1,
        get_user_sessions user_id (create_session user_id data self).2 =
          (Return (JStr <$> sessions1), self1) ∧
        tokens w (drawn w) ∈ sessions1 ∧
        ∀ session_id, session_id ∈ sessions → session_id ∈ sessions1.
Proof.
  intros Hwf w. subst w.
  destruct (get_user_sessions_run self user_id Hwf)
    as (sessions & self' & Hrun & Hnd & Hlisted & Hstore & Hcalls).
  exists sessions, self'. split_and!; try done. intros data.
  destruct (get_user_sessions_run (create_session user_id data self).2 user_id
              (create_session_well_formed user_id data self Hwf))
    as (sessions1 & self1 & Hrun1 & _ & Hlisted1 & _).
  exists sessions1, self1. split; [done|].
  assert (Hnew : user_of (store (db (create_session user_id data self).2))
                   (tokens (db self) (drawn (db self))) = Some user_id).
  { rewrite create_session_run. destruct self as [[st cl es ck tk tok dr] ttl]. run.
    unfold user_of. by rewrite lookup_insert_eq, loads_dumps. }
  split; [by apply Hlisted1|].
  intros sid Hsid%Hlisted. apply Hlisted1.
  destruct (decide (sid = tokens (db self) (drawn (db self)))) as [->|Hne]; [done|].
  revert Hsid. rewrite create_session_run.
  destruct self as [[st cl es ck tk tok dr] ttl]. run.
  unfold user_of. rewrite lookup_insert_ne; [done|].
  intros Heq%string_app_inj. by apply Hne.
Qed.

(** (X20) [SessionStore.get_stats] cannot fail, whatever the store holds:
    [total_sessions] is the number of [session:] keys (expired ones
    included), and the engine metrics are read after the scan.  That number
    grows by one with [create_session] when the token is new and shrinks by
    one with [delete_session] of an existing session. *)
Theorem session_get_stats_counts_keys (self : SessionStore.t) :
  let w := db self in
  let count (m : gmap string bytes) :=
    Z.of_nat (size (filter (λ kv : string * bytes, startswith kv.1 session_prefix) m)) in
  ∃ snapshot self',
    get_stats self = (Return snapshot, self') ∧
    total_sessions snapshot = count (store w) ∧
    snapshot_memtable_size snapshot =
      memtable_size (engine_stats w (calls w ++ [CallScan session_prefix])) ∧
    snapshot_cache_entries snapshot =
      cache_entries (engine_stats w (calls w ++ [CallScan session_prefix])) ∧
    (∀ user_id data,
       store w !! (session_prefix +:+ tokens w (drawn w)) = None →
       count (store (db (create_session user_id data self).2)) = count (store w) + 1) ∧
    (∀ session_id,
       is_Some (store w !! (session_prefix +:+ session_id)) →
       count (store (db (delete_session session_id self).2)) = count (store w) - 1).
Proof.
  intros w count. subst w count.
  destruct self as [[st cl es ck tk tok dr] ttl]. unfold get_stats. run.
  eexists _, _. split; [done|].
  cbn [total_sessions snapshot_memtable_size snapshot_cache_entries].
  run. split_and!; try done.
  - fold (with_prefix session_prefix (scan_entries session_prefix st)).
    by rewrite with_prefix_scan_Permutation, length_map_to_list.
  - intros user_id data Hfresh. rewrite create_session_run. run.
    rewrite map_filter_insert_True by apply session_key_startswith.
    rewrite map_size_insert_None; [lia|].
    by rewrite map_lookup_filter_None; left.
  - intros sid [b Hk]. rewrite map_filter_delete.
    assert (filter (λ kv : string * bytes, startswith kv.1 session_prefix) st
              !! (session_prefix +:+ sid) = Some b) as Hin
      by (apply map_lookup_filter_Some; split; [done|apply session_key_startswith]).
    rewrite map_size_delete_Some by by eexists.
    assert (size (filter (λ kv : string * bytes, startswith kv.1 session_prefix) st) ≠ 0)%nat.
    { intros Hz%map_size_empty_iff. by rewrite Hz, lookup_empty in Hin. }
    lia.
Qed.





End session_behaviour.

(** ** The session store on the reference runtime *)

Section reference_session_behaviour.
Import SessionStore.



Lemma sessions_with_two_well_formed later :
  session_well_formed (store (db (sessions_with_two later))).
Proof.
  unfold sessions_with_two, sessions_with_one.
  do 2 apply create_session_well_formed. apply session_well_formed_empty.
Qed.


(** Witness for X19: the sessions of ["u2"] among two sessions. *)
Lemma get_user_sessions_lists_owner_witness :
  let self := sessions_with_two [] in
  ∃ sessions self',
    get_user_sessions "u2" self = (Return (JStr <$> sessions), self') ∧
    NoDup sessions ∧
    (∀ session_id,
       session_id ∈ sessions ↔ user_of (store (db self)) session_id = Some "u2") ∧
    store (db self') = store (db self) ∧
    calls (db self') = calls (db self) ++ [CallScan session_prefix] ∧
    ∀ data,
      ∃ sessions1 self1,
        get_user_sessions "u2" (create_session "u2" data self).2 =
          (Return (JStr <$> sessions1), self1) ∧
        tokens (db self) (drawn (db self)) ∈ sessions1 ∧
        ∀ session_id, session_id ∈ sessions → session_id ∈ sessions1.
Proof.
  exact (get_user_sessions_lists_owner (sessions_with_two []) "u2"
           (sessions_with_two_well_formed [])).
Defined.


End reference_session_behaviour.
